(** * Query log and rolling top statistics of AdGuardHome

    A shallow embedding of
    - [home/control_querylog.go]   (package [home]: the HTTP handlers, and
      package [dnsforward]: [hourTop], [dayTop], [fillStatsFromQueryLog],
      [getStatsTop]), and
    - [querylog/querylog_file.go]  (package [querylog]: [flushLogBuffer],
      [flushToFile], [checkBuffer], [genericLoader], [fillFromFile]).

    The model is sequential: mutexes ([hoursLock], [mutex], [fileWriteLock],
    [logBufferLock], ...) are taken and released around the steps written
    here and are not represented.  Logging calls have no effect on the state
    and are left out. *)

From stdpp Require Import base gmap strings list.
From Stdlib Require Import ZArith Lia Ascii.
From Stdlib.Strings Require Import Byte.

Local Open Scope Z_scope.

(** ** Go primitives *)

Module Go.

(** [int] and [int64] are 64-bit two's complement. *)
Definition int_max : Z := 2 ^ 63 - 1.
Definition int_min : Z := - 2 ^ 63.

Definition wrap_int (z : Z) : Z := (z + 2 ^ 63) mod 2 ^ 64 - 2 ^ 63.

(** A computation that may end in a run-time panic (index or slice bound
    out of range). *)
Inductive res (A : Type) : Type :=
| Ret (a : A)
| Panic.
Global Arguments Ret {A} a.
Global Arguments Panic {A}.

Global Instance res_bind : MBind res := fun A B f m =>
  match m with
  | Ret a => f a
  | Panic => Panic
  end.

(** The value of type [error]: [None] is [nil]. *)
Definition error : Type := option string.

(** [s[i]] *)
Definition index {A} (s : list A) (i : Z) : res A :=
  if decide (0 <= i) then
    match s !! Z.to_nat i with
    | Some x => Ret x
    | None => Panic
    end
  else Panic.

(** [s[:n]].  Go accepts [n] up to the capacity of [s]; between the
    length and the capacity the result exposes whatever the backing array
    holds, which the slice value does not determine.  The model stops
    there as it does for [n] beyond the capacity or negative. *)
Definition slice_to {A} (s : list A) (n : Z) : res (list A) :=
  if decide (0 <= n <= Z.of_nat (length s)) then Ret (take (Z.to_nat n) s)
  else Panic.

End Go.

Import Go.

(** ** Package [strings] (the two functions [addEntry] calls) *)

Module gostrings.

Definition lower_ascii (a : ascii) : ascii :=
  let n := nat_of_ascii a in
  if (Nat.leb 65 n && Nat.leb n 90)%bool then ascii_of_nat (n + 32) else a.

(** [strings.ToLower] on ASCII.  Names handed out by the DNS library are
    in presentation format, where bytes outside the printable ASCII range
    are written as decimal escapes; bytes from 128 on are left alone
    here. *)
Fixpoint ToLower (s : string) : string :=
  match s with
  | EmptyString => EmptyString
  | String a s' => String (lower_ascii a) (ToLower s')
  end.

Fixpoint hasPrefix (p s : list ascii) : bool :=
  match p, s with
  | [], _ => true
  | a :: p', b :: s' => if decide (a = b) then hasPrefix p' s' else false
  | _ :: _, [] => false
  end.

(** [strings.TrimSuffix]: one occurrence of [suffix] is cut from the end
    of [s] when [s] ends with it. *)
Definition TrimSuffix (s suffix : string) : string :=
  let rs := rev (String.list_ascii_of_string s) in
  let rsuf := rev (String.list_ascii_of_string suffix) in
  if hasPrefix rsuf rs then String.string_of_list_ascii (rev (drop (length rsuf) rs))
  else s.

End gostrings.

(** ** Package [gcache]: the LRU cache behind every counter

    The library is not part of the repository.  Its LRU cache keeps a map
    from keys to the elements of a recency list; [Get] of a present key
    moves it to the front; [Set] of a present key replaces the value and
    moves it to the front; [Set] of a new key first evicts the back of the
    list when the list has reached [size], then pushes the key at the front.
    No expiration, loader or serializer is configured by [hourTop.init], so
    [Get] fails only with [KeyNotFoundError] and [Set] never fails. *)

Module gcache.

(** The values are [interface{}]; [incrementValue] stores [int]s. *)
Inductive ivalue : Type :=
| VInt (n : Z)
| VOther (s : string).

Global Instance ivalue_eq_dec : EqDecision ivalue.
Proof. solve_decision. Defined.

(** [items]: most recently used first. *)
Record Cache : Type := mkCache {
  size : Z;
  items : list (string * ivalue)
}.

Definition New (size : Z) : Cache := {| size := size; items := [] |}.

Fixpoint find (key : string) (l : list (string * ivalue)) : option ivalue :=
  match l with
  | [] => None
  | (k, v) :: l' => if decide (k = key) then Some v else find key l'
  end.

Fixpoint remove (key : string) (l : list (string * ivalue))
  : list (string * ivalue) :=
  match l with
  | [] => []
  | (k, v) :: l' =>
      if decide (k = key) then remove key l' else (k, v) :: remove key l'
  end.

(** [None] is [KeyNotFoundError]. *)
Definition Get (key : string) (c : Cache) : option ivalue * Cache :=
  match find key (items c) with
  | Some v =>
      (Some v, {| size := size c; items := (key, v) :: remove key (items c) |})
  | None => (None, c)
  end.

Definition Set_ (key : string) (v : ivalue) (c : Cache) : Cache :=
  match find key (items c) with
  | Some _ => {| size := size c; items := (key, v) :: remove key (items c) |}
  | None =>
      let kept :=
        if decide (size c <= Z.of_nat (length (items c)))
        then removelast (items c)
        else items c in
      {| size := size c; items := (key, v) :: kept |}
  end.

(** [Keys] ranges over a Go map, in no fixed order; the recency order
    stands for it. *)
Definition Keys (c : Cache) : list string := (items c).*1.

End gcache.

(** ** Package [time] *)

Module time.

(** An instant: nanoseconds since the Unix epoch.  A duration: [int64]
    nanoseconds. *)
Definition Time : Type := Z.
Definition Duration : Type := Z.

Definition Second : Duration := 1000000000.
Definition Hour : Duration := 3600 * Second.

(** [t.Sub(u)] saturates at the ends of [int64]. *)
Definition Sub (t u : Time) : Duration :=
  Z.max int_min (Z.min int_max (t - u)).

Definition After (t u : Time) : bool := bool_decide (u < t).

(** [t.Unix()]: whole seconds, rounded down. *)
Definition Unix (t : Time) : Z := t `div` Second.

End time.

(** ** Package [dns]: what the code reads of a message *)

Module dns.

Record Question_ : Type := mkQuestion {
  Name : string;
  Qtype : Z;
  Qclass : Z
}.

Record Msg : Type := mkMsg {
  Question : list Question_
}.

End dns.

(** ** The log entry

    The struct is declared outside the two files; these are the fields the
    functions below read ([Question], [Result.IsFiltered], [Time],
    [Elapsed], [IP]) and the answer payload the data model names. *)

Module entry.

Record Result_ : Type := mkResult {
  IsFiltered : bool;
  Reason : Z;
  Rule : string
}.

Record logEntry : Type := mkEntry {
  Question : list byte;
  Answer : list byte;
  Result : Result_;
  Time : time.Time;
  Elapsed : time.Duration;
  IP : string
}.

Global Instance byte_eq_dec : EqDecision byte.
Proof. intros x y. destruct (Byte.byte_eq_dec x y); [left | right]; assumption. Defined.

Global Instance Result_eq_dec : EqDecision Result_.
Proof. solve_decision. Defined.

Global Instance logEntry_eq_dec : EqDecision logEntry.
Proof. solve_decision. Defined.

End entry.

(** ** Package [dnsforward]: the hourly top counters *)

Module dnsforward.

Import gcache gostrings.

(** One bucket: three LRU counters.  The caches are shared objects behind
    the [gcache.Cache] interface; a bucket is updated in place. *)
Record hourTop : Type := mkHourTop {
  domains : Cache;
  blocked : Cache;
  clients : Cache
}.

(** [hours] holds pointers to buckets, newest first; every bucket is
    allocated once and appears once. *)
Record dayTop : Type := mkDayTop {
  limit : Z;
  hours : list hourTop
}.

(** The zero value a [dayTop] has before its first [init]. *)
Definition dayTop_zero : dayTop := {| limit := 0; hours := [] |}.

Record StatsTop : Type := mkStatsTop {
  Domains : gmap string Z;
  Blocked : gmap string Z;
  Clients : gmap string Z
}.

Section Top.

(** The capacity of each counter, a constant declared outside the file.
    [gcache]'s builder refuses a capacity that is not positive. *)
Variable queryLogTopSize : Z.

(** [int(d.Hours())]: the duration in hours, computed in [float64] and
    truncated toward zero by the conversion. *)
Variable hoursOf : time.Duration -> Z.

Definition hourTop_init : hourTop :=
  {| domains := New queryLogTopSize;
     blocked := New queryLogTopSize;
     clients := New queryLogTopSize |}.

(** The loop [for i := 0; i < limit; i++] of [dayTop.init]. *)
Definition freshHours (limit : Z) : list hourTop :=
  replicate (Z.to_nat limit) hourTop_init.

Definition dayTop_init (limit_ : Z) (d : dayTop) : res dayTop :=
  let a := freshHours limit_ in
  hs ← (if decide (length (hours d) = 0%nat) then Ret a
        else if decide (limit_ > limit d) then
          a' ← slice_to a (limit_ - limit d); Ret (hours d ++ a')
        else if decide (limit_ < limit d) then
          slice_to (hours d) (limit d - limit_)
        else Ret (hours d));
  Ret {| limit := limit_; hours := hs |}.

Definition rotateHourlyTop (d : dayTop) : res dayTop :=
  hs ← slice_to (hourTop_init :: hours d) (limit d);
  Ret {| limit := limit d; hours := hs |}.

Definition incrementValue (key : string) (cache : Cache) : error * Cache :=
  match Get key cache with
  | (None, cache1) => (None, Set_ key (VInt 1) cache1)
  | (Some (VInt cachedValue), cache1) =>
      (None, Set_ key (VInt (wrap_int (cachedValue + 1))) cache1)
  | (Some (VOther _), cache1) =>
      (Some "SHOULD NOT HAPPEN: gcache has non-int as value"%string, cache1)
  end.

Definition incrementDomains (key : string) (h : hourTop) : error * hourTop :=
  let '(err, c) := incrementValue key (domains h) in
  (err, {| domains := c; blocked := blocked h; clients := clients h |}).

Definition incrementBlocked (key : string) (h : hourTop) : error * hourTop :=
  let '(err, c) := incrementValue key (blocked h) in
  (err, {| domains := domains h; blocked := c; clients := clients h |}).

Definition incrementClients (key : string) (h : hourTop) : error * hourTop :=
  let '(err, c) := incrementValue key (clients h) in
  (err, {| domains := domains h; blocked := blocked h; clients := c |}).

(** The value, the error, and the cache after the lookup ([Get] moves a
    present key to the front). *)
Definition lockedGetValue (key : string) (cache : Cache)
  : (Z * error) * Cache :=
  match Get key cache with
  | (None, cache1) => ((0, None), cache1)
  | (Some (VInt value), cache1) => ((value, None), cache1)
  | (Some (VOther _), cache1) =>
      ((0, Some "SHOULD NOT HAPPEN: gcache has non-int as value"%string),
       cache1)
  end.

(** The bucket [d.hours[hour]] after an update in place. *)
Definition setHour (d : dayTop) (hour : Z) (h : hourTop) : dayTop :=
  {| limit := limit d; hours := <[Z.to_nat hour := h]> (hours d) |}.

Definition addEntry (e : entry.logEntry) (q : dns.Msg) (now : time.Time)
    (d : dayTop) : res (error * dayTop) :=
  let hour := hoursOf (time.Sub now (entry.Time e)) in
  if decide (hour >= limit d) then Ret (None, d)
  else
    match dns.Question q with
    | [] => Ret (None, d)
    | q0 :: _ =>
        let hostname := ToLower (TrimSuffix (dns.Name q0) ".") in
        if decide (hostname = ""%string) then Ret (None, d)
        else
          h ← index (hours d) hour;
          let '(err, h1) := incrementDomains hostname h in
          match err with
          | Some _ => Ret (err, setHour d hour h1)
          | None =>
              let '(err, h2) :=
                if entry.IsFiltered (entry.Result e)
                then incrementBlocked hostname h1
                else (None, h1) in
              match err with
              | Some _ => Ret (err, setHour d hour h2)
              | None =>
                  let '(err, h3) :=
                    if decide (0 < String.length (entry.IP e))%nat
                    then incrementClients (entry.IP e) h2
                    else (None, h2) in
                  Ret (err, setHour d hour h3)
              end
          end
    end.

(** The closure [do] of [getStatsTop]: it stops at the first key whose
    getter fails.  The keys of a cache filled by [incrementValue] are
    strings, so the assertion [ikey.(string)] holds for each. *)
Fixpoint do_ (keys : list string) (cache : Cache) (result : gmap string Z)
  : gmap string Z * Cache :=
  match keys with
  | [] => (result, cache)
  | key :: keys' =>
      match lockedGetValue key cache with
      | ((_, Some _), cache1) => (result, cache1)
      | ((value, None), cache1) =>
          do_ keys' cache1
            (<[key := wrap_int (default 0 (result !! key) + value)]> result)
      end
  end.

Definition statsOfHour (h : hourTop) (s : StatsTop) : StatsTop * hourTop :=
  let '(dm, c1) := do_ (Keys (domains h)) (domains h) (Domains s) in
  let '(bl, c2) := do_ (Keys (blocked h)) (blocked h) (Blocked s) in
  let '(cl, c3) := do_ (Keys (clients h)) (clients h) (Clients s) in
  ({| Domains := dm; Blocked := bl; Clients := cl |},
   {| domains := c1; blocked := c2; clients := c3 |}).

(** [for hour := 0; hour < hourOffset; hour++] over [d.hours]. *)
Fixpoint statsLoop (n : nat) (hs : list hourTop) (s : StatsTop)
  : StatsTop * list hourTop :=
  match n, hs with
  | S n', h :: hs' =>
      let '(s1, h1) := statsOfHour h s in
      let '(s2, hs2) := statsLoop n' hs' s1 in
      (s2, h1 :: hs2)
  | _, _ => (s, hs)
  end.

Definition getStatsTop (hourOffset : Z) (d : dayTop) : StatsTop * dayTop :=
  let hourOffset :=
    if decide (hourOffset > Z.of_nat (length (hours d)))
    then Z.of_nat (length (hours d)) else hourOffset in
  let '(s, hs) :=
    statsLoop (Z.to_nat hourOffset) (hours d)
      {| Domains := ∅; Blocked := ∅; Clients := ∅ |} in
  (s, {| limit := limit d; hours := hs |}).

(** A run of [addEntry] calls, each with its own clock reading, up to
    the first error. *)
Fixpoint addEntries (es : list (entry.logEntry * dns.Msg * time.Time))
    (d : dayTop) : res (error * dayTop) :=
  match es with
  | [] => Ret (None, d)
  | (e, q, now) :: es' =>
      r ← addEntry e q now d;
      match r with
      | (Some err, d') => Ret (Some err, d')
      | (None, d') => addEntries es' d'
      end
  end.

End Top.

Section Fill.

Variable hoursOf : time.Duration -> Z.

(** [dns.Msg.Unpack] of the DNS library: the message read from its wire
    format, or an error. *)
Variable Unpack : list byte -> option dns.Msg.

(** The global counters [stats] and [incrementCounters] are declared
    outside the file. *)
Context {stats : Type}.
Variable incrementCounters : stats -> entry.logEntry -> stats.

(** The fields of [queryLog] that [fillStatsFromQueryLog] reads. *)
Record queryLog : Type := mkQueryLog {
  timeLimit : Z;
  runningTop : dayTop
}.

(** The loop over [r.Next()].  The reader is declared outside the file;
    it hands out the entries of the log one by one and [nil] at the end,
    so it is given here as the list of entries it yields. *)
Fixpoint fillStatsLoop (now : time.Time) (validFrom : Z)
    (entries : list entry.logEntry) (top : dayTop) (s : stats)
  : res (dayTop * stats) :=
  match entries with
  | [] => Ret (top, s)
  | e :: rest =>
      if decide (time.Unix (entry.Time e) < validFrom) then
        fillStatsLoop now validFrom rest top s
      else if decide (length (entry.Question e) = 0%nat) then
        fillStatsLoop now validFrom rest top s
      else if time.After (entry.Time e) now then
        fillStatsLoop now validFrom rest top s
      else
        match Unpack (entry.Question e) with
        | None => fillStatsLoop now validFrom rest top s
        | Some q =>
            if decide (length (dns.Question q) ≠ 1%nat) then
              fillStatsLoop now validFrom rest top s
            else
              r ← addEntry hoursOf e q now top;
              match r with
              | (Some _, top') => fillStatsLoop now validFrom rest top' s
              | (None, top') =>
                  fillStatsLoop now validFrom rest top'
                    (incrementCounters s e)
              end
        end
  end.

(** [reader] is the result of [l.OpenReader()]: [None] is [nil]. *)
Definition fillStatsFromQueryLog (now : time.Time)
    (reader : option (list entry.logEntry)) (l : queryLog) (s : stats)
  : res (error * queryLog * stats) :=
  let validFrom := wrap_int (time.Unix now - wrap_int (timeLimit l * 60 * 60)) in
  match reader with
  | None => Ret (None, l, s)
  | Some entries =>
      '(top, s') ← fillStatsLoop now validFrom entries (runningTop l) s;
      Ret (None, {| timeLimit := timeLimit l; runningTop := top |}, s')
  end.

End Fill.

End dnsforward.

(** ** Package [querylog]: the log file *)

Module querylog.

Import entry.

Definition enableGzip : bool := false.

Record Config : Type := mkConfig {
  Interval : time.Duration
}.

(** The fields of [queryLog] that the file functions use. *)
Record queryLog : Type := mkQueryLog {
  conf : Config;
  logFile : string;
  logBuffer : list logEntry;
  flushPending : bool;
  queryLogCache : list logEntry
}.

(** How the operating system answers the [OpenFile] and [Write] of one
    flush.  A failed [Write] may have put a part of the data on disk. *)
Inductive ioFault : Type :=
| NoFault
| OpenFails
| WriteFails (written : nat).

(** A call that returns, or never does. *)
Inductive run (A : Type) : Type :=
| Returns (a : A)
| Hangs.
Global Arguments Returns {A} a.
Global Arguments Hangs {A}.

(** The files by name, each a sequence of records, oldest first. *)
Abbreviation disk record := (gmap string (list record)) (only parsing).

Section Store.

(** [encoding/json] is read at the level of its stream of values:
    [Encoder.Encode] appends one record (a JSON value and a newline) or
    fails; [Decoder.More] tells whether a record is left;
    [Decoder.Decode] yields the entry of the next record or fails. *)
Context {record : Type}.
Variable Encode : logEntry -> option record.
Variable Decode : record -> option logEntry.

(** Why [Decode] fails on a record, for the loop that goes on after a
    failure.  [None]: the record is a well-formed JSON value that does not
    fit the entry; the decoder has consumed it.  [Some more]: the record is
    not well-formed JSON (a syntax error, or the input ends inside it); the
    decoder consumes nothing and returns the same error from then on, and
    [more] is what [d.More()] answers there ([false] only when the damaged
    text begins with a closing bracket). *)
Variable Broken : record -> option bool.

Variable Unpack : list byte -> option dns.Msg.

(** Constants declared outside the file, both positive. *)
Variable logBufferCap : Z.
Variable queryLogSize : Z.


(** [os.OpenFile] with [O_WRONLY|O_CREATE|O_APPEND], then [f.Write]. *)
Definition appendFile (fault : ioFault) (filename : string)
    (data : list record) (fs : disk record) : error * disk record :=
  match fault with
  | OpenFails => (Some "open"%string, fs)
  | WriteFails n =>
      (Some "write"%string,
       <[filename := default [] (fs !! filename) ++ take n data]> fs)
  | NoFault =>
      (None, <[filename := default [] (fs !! filename) ++ data]> fs)
  end.

(** The loop [for _, entry := range buffer] of [flushToFile]: the
    encoded records, or [None] at the first entry that fails. *)
Fixpoint encodeAll (buffer : list logEntry) : option (list record) :=
  match buffer with
  | [] => Some []
  | e :: rest =>
      match Encode e with
      | None => None
      | Some r =>
          match encodeAll rest with
          | None => None
          | Some rs => Some (r :: rs)
          end
      end
  end.

(** The loop [for d.More()] of [checkBuffer], from index [i]: the error
    and the final index. *)
Fixpoint checkLoop (buffer : list logEntry) (b : list record) (i : nat)
  : res (error * nat) :=
  match b with
  | [] => Ret (None, i)
  | r :: b' =>
      match Decode r with
      | None => Ret (Some "decode"%string, i)
      | Some e =>
          x ← index buffer (Z.of_nat i);
          if decide (e = x) then checkLoop buffer b' (S i)
          else Ret (Some "decoded buffer differs"%string, i)
      end
  end.

Definition checkBuffer (buffer : list logEntry) (b : list record)
  : res error :=
  let l := length buffer in
  '(err, i) ← checkLoop buffer b 0;
  match err with
  | Some _ => Ret err
  | None =>
      if decide (i ≠ l) then Ret (Some "check fail"%string) else Ret None
  end.

(** [enableGzip] is a constant [false]: the file is [l.logFile] and the
    bytes written are the encoded ones. *)
Definition flushToFile (l : queryLog) (buffer : list logEntry)
    (fault : ioFault) (fs : disk record) : res (error * disk record) :=
  if decide (length buffer = 0%nat) then Ret (None, fs)
  else
    match encodeAll buffer with
    | None => Ret (Some "marshal"%string, fs)
    | Some b =>
        err ← checkBuffer buffer b;
        match err with
        | Some _ => Ret (err, fs)
        | None =>
            let filename :=
              if enableGzip then (logFile l +:+ ".gz")%string
              else logFile l in
            Ret (appendFile fault filename b fs)
        end
    end.

Definition flushLogBuffer (fullFlush : bool) (l : queryLog)
    (fault : ioFault) (fs : disk record) : res (error * queryLog * disk record) :=
  let needFlush := bool_decide (Z.of_nat (length (logBuffer l)) >= logBufferCap) in
  if (negb needFlush && negb fullFlush)%bool then Ret (None, l, fs)
  else
    let flushBuffer := logBuffer l in
    let l' := {| conf := conf l; logFile := logFile l; logBuffer := [];
                 flushPending := false;
                 queryLogCache := queryLogCache l |} in
    '(err, fs') ← flushToFile l' flushBuffer fault fs;
    Ret (err, l', fs').

Section Loader.

(** [onEntry] and [needMore] are closures over the state [St] they
    read and update. *)
Context {St : Type}.
Variable onEntry : logEntry -> St -> error * St.
Variable needMore : St -> bool.
Variable timeWindow : time.Duration.
Variable now : time.Time.

(** The loop [for d.More()] over one file.  The first component of a
    result tells how the loop was left: [Some err] is the [return err].
    On a record that is not well-formed JSON the decoder does not advance:
    the loop ends there when [d.More()] is false, and otherwise goes round
    on the same error for as long as [needMore] holds, which it does for
    good since the state does not change. *)
Fixpoint scanRecords (rs : list record) (s : St) : run (error * St) :=
  match rs with
  | [] => Returns (None, s)
  | r :: rs' =>
      match Decode r, Broken r with
      | None, Some false => Returns (None, s)
      | decoded, broken =>
          if negb (needMore s) then Returns (None, s)
          else
            match decoded with
            | None =>
                match broken with
                | None => scanRecords rs' s
                | Some _ => Hangs
                end
            | Some e =>
                if decide (time.Sub now (Time e) > timeWindow) then
                  scanRecords rs' s
                else
                  match onEntry e s with
                  | (Some err, s') => Returns (Some err, s')
                  | (None, s') => scanRecords rs' s'
                  end
            end
      end
  end.

(** The loop [for _, file := range files].  A file that does not
    exist and a file that cannot be opened both take [continue]; the
    disk holds the files that open. *)
Fixpoint scanFiles (files : list string) (fs : disk record) (s : St)
  : run (error * St) :=
  match files with
  | [] => Returns (None, s)
  | file :: files' =>
      if negb (needMore s) then Returns (None, s)
      else
        match fs !! file with
        | None => scanFiles files' fs s
        | Some rs =>
            match scanRecords rs s with
            | Hangs => Hangs
            | Returns (Some err, s') => Returns (Some err, s')
            | Returns (None, s') => scanFiles files' fs s'
            end
        end
  end.

Definition genericLoader (l : queryLog) (fs : disk record) (s : St)
  : run (error * St) :=
  let files :=
    if enableGzip
    then [(logFile l +:+ ".gz")%string; (logFile l +:+ ".gz.1")%string]
    else [logFile l; (logFile l +:+ ".1")%string] in
  scanFiles files fs s.

End Loader.

(** The closure [onEntry] of [fillFromFile], over the cache
    [l.queryLogCache]; [now] is the clock reading of [fillFromFile]. *)
Definition fillFromFile_onEntry (now : time.Time) (e : logEntry)
    (cache : list logEntry) : error * list logEntry :=
  if decide (length (Question e) = 0%nat) then (None, cache)
  else if time.After (Time e) now then (None, cache)
  else
    match Unpack (Question e) with
    | None => (Some "unpack"%string, cache)
    | Some q =>
        if decide (length (dns.Question q) ≠ 1%nat) then (None, cache)
        else
          let cache1 := cache ++ [e] in
          if decide (Z.of_nat (length cache1) > queryLogSize) then
            let toremove := Z.of_nat (length cache1) - queryLogSize in
            (None, drop (Z.to_nat toremove) cache1)
          else (None, cache1)
    end.

(** [now] is read by [fillFromFile], [nowLoader] after it by
    [genericLoader].  The error of the loader is logged and dropped. *)
Definition fillFromFile (now nowLoader : time.Time) (fs : disk record)
    (l : queryLog) : run queryLog :=
  match genericLoader (fillFromFile_onEntry now) (fun _ => true)
          (Interval (conf l)) nowLoader l fs (queryLogCache l) with
  | Hangs => Hangs
  | Returns (_, cache) =>
      Returns {| conf := conf l; logFile := logFile l;
                 logBuffer := logBuffer l; flushPending := flushPending l;
                 queryLogCache := cache |}
  end.

(** [renameFails] is how the operating system answers [os.Rename].  The
    rename replaces the backup when there is one. *)
Definition rotateQueryLog (renameFails : bool) (l : queryLog)
    (fs : disk record) : error * disk record :=
  let from :=
    if enableGzip then (logFile l +:+ ".gz")%string else logFile l in
  let to :=
    if enableGzip then (logFile l +:+ ".gz.1")%string
    else (logFile l +:+ ".1")%string in
  match fs !! from with
  | None => (None, fs)
  | Some content =>
      if renameFails then (Some "rename"%string, fs)
      else (None, <[to := content]> (delete from fs))
  end.

End Store.

End querylog.

(** ** Package [home]: the configuration handler *)

Module home.

(** [Interval] is a [uint32]. *)
Record qlogConfig : Type := mkQlogConfig {
  Enabled : bool;
  Interval : Z
}.

(** The part of the global [config] the handler touches: the two DNS
    settings, and the query log, seen through the [Configure] calls it
    has received (latest first). *)
Record configuration : Type := mkConfiguration {
  QueryLogEnabled : bool;
  QueryLogInterval : Z;
  configureCalls : list querylog.Config
}.

Inductive response : Type :=
| httpError (code : Z) (text : string)
| returnOK.

Definition StatusBadRequest : Z := 400.

Section Handler.

(** Declared outside the file: the test of the supported intervals. *)
Variable checkStatsInterval : Z -> bool.

(** [json.NewDecoder(r.Body).Decode(&reqData)]. *)
Variable decodeBody : list byte -> option qlogConfig.

Definition handleQueryLogConfig (body : list byte) (config : configuration)
  : response * configuration :=
  match decodeBody body with
  | None => (httpError StatusBadRequest "json decode", config)
  | Some reqData =>
      if negb (checkStatsInterval (Interval reqData)) then
        (httpError StatusBadRequest "Unsupported interval", config)
      else
        let conf :=
          {| querylog.Interval :=
               wrap_int (Interval reqData * 24 * time.Hour) |} in
        (returnOK,
         {| QueryLogEnabled := Enabled reqData;
            QueryLogInterval := Interval reqData;
            configureCalls := conf :: configureCalls config |})
  end.

End Handler.

Definition StatusInternalServerError : Z := 500.

(** The answer of a handler that writes a JSON body. *)
Inductive jsonResponse : Type :=
| jsonError (code : Z) (text : string)
| jsonBody (body : list byte).

Section Info.

(** [json.Marshal] of the answer. *)
Variable Marshal : qlogConfig -> option (list byte).

(** [writeFails] is how [w.Write] ends. *)
Definition handleQueryLogInfo (writeFails : bool) (config : configuration)
  : jsonResponse :=
  let resp := {| Enabled := QueryLogEnabled config;
                 Interval := QueryLogInterval config |} in
  match Marshal resp with
  | None => jsonError StatusInternalServerError "json encode"
  | Some jsonVal =>
      if writeFails then jsonError StatusInternalServerError "http write"
      else jsonBody jsonVal
  end.

End Info.

End home.

(** ** Vocabulary of the statements *)

Module spec.

Import gcache dnsforward.

(** The count a reader observes for [key]: what [lockedGetValue] returns. *)
Definition count (key : string) (c : Cache) : Z := (lockedGetValue key c).1.1.

(** [key] has an item in the cache (it has been set and not evicted). *)
Definition resident (key : string) (c : Cache) : Prop :=
  find key (items c) ≠ None.

(** Every value is an [int], as in a cache written by [incrementValue]. *)
Definition intValued (c : Cache) : Prop :=
  ∀ key s, find key (items c) ≠ Some (VOther s).

(** The name [addEntry] counts a message under, when it has one. *)
Definition queryName (q : dns.Msg) : option string :=
  match dns.Question q with
  | [] => None
  | q0 :: _ =>
      let hostname := gostrings.ToLower (gostrings.TrimSuffix (dns.Name q0) ".") in
      if decide (hostname = ""%string) then None else Some hostname
  end.

(** The bucket of an entry after [addEntry] has counted it. *)
Definition counted (e : entry.logEntry) (name : string) (h : hourTop) : hourTop :=
  {| domains := (incrementValue name (domains h)).2;
     blocked := if entry.IsFiltered (entry.Result e)
                then (incrementValue name (blocked h)).2 else blocked h;
     clients := if decide (entry.IP e = ""%string) then clients h
                else (incrementValue (entry.IP e) (clients h)).2 |}.

(** The domain counter of the newest bucket holds [name] alone, [k] times
    (nothing when [k] is zero); the other two counters hold [int]s. *)
Definition headCounts (name : string) (k : nat) (d : dayTop) : Prop :=
  0 < limit d ∧
  ∃ h rest, hours d = h :: rest ∧
    items (domains h) =
      match k with O => [] | S _ => [(name, VInt (Z.of_nat k))] end ∧
    intValued (blocked h) ∧ intValued (clients h).

(** A run of [incrementValue] calls on one counter. *)
Fixpoint incrementAll (keys : list string) (c : Cache) : Cache :=
  match keys with
  | [] => c
  | key :: keys' => incrementAll keys' (incrementValue key c).2
  end.

(** An entry the codec carries faithfully: it encodes, and its record
    decodes to it. *)
Definition valid {record : Type} (Encode : entry.logEntry -> option record)
    (Decode : record -> option entry.logEntry) (e : entry.logEntry) : Prop :=
  ∃ r, Encode e = Some r ∧ Decode r = Some e.

(** A counter as [incrementValue] keeps it: no key twice, [int] values, no
    more items than the capacity. *)
Definition wfCache (c : Cache) : Prop :=
  NoDup (Keys c) ∧ intValued c ∧ Z.of_nat (length (items c)) <= size c.

Definition wfHour (cap : Z) (h : hourTop) : Prop :=
  (wfCache (domains h) ∧ size (domains h) = cap) ∧
  (wfCache (blocked h) ∧ size (blocked h) = cap) ∧
  (wfCache (clients h) ∧ size (clients h) = cap).

(** The ring as the rest of the code expects it: as many buckets as the
    limit says, each with counters of capacity [cap]. *)
Definition wfTop (cap : Z) (d : dayTop) : Prop :=
  Z.of_nat (length (hours d)) = limit d ∧ Forall (wfHour cap) (hours d).

(** The operations on the ring, for statements about their sequences:
    [init] with a limit, the hourly rotation, and [addEntry]. *)
Inductive ringOp : Type :=
| OpInit (limit_ : Z)
| OpRotate
| OpAdd (e : entry.logEntry) (q : dns.Msg) (now : time.Time).

Definition runOp (cap : Z) (hoursOf : time.Duration -> Z) (op : ringOp)
    (d : dayTop) : res dayTop :=
  match op with
  | OpInit n => dayTop_init cap n d
  | OpRotate => rotateHourlyTop cap d
  | OpAdd e q now => r ← addEntry hoursOf e q now d; Ret r.2
  end.

Fixpoint runOps (cap : Z) (hoursOf : time.Duration -> Z) (ops : list ringOp)
    (d : dayTop) : res dayTop :=
  match ops with
  | [] => Ret d
  | op :: ops' => d' ← runOp cap hoursOf op d; runOps cap hoursOf ops' d'
  end.

(** A sequence of ring operations in which no [init] lowers the limit
    [lim] of the moment and no entry is stamped an hour or more after its
    clock reading. *)
Fixpoint admissible (hoursOf : time.Duration -> Z) (lim : Z)
    (ops : list ringOp) : Prop :=
  match ops with
  | [] => True
  | OpInit n :: ops' => lim <= n ∧ admissible hoursOf n ops'
  | OpRotate :: ops' => admissible hoursOf lim ops'
  | OpAdd e q now :: ops' =>
      0 <= hoursOf (time.Sub now (entry.Time e)) ∧ admissible hoursOf lim ops'
  end.

(** Two states of a bucket with the same value under every key of every
    counter (the order of recency may differ). *)
Definition sameCounts (h h' : hourTop) : Prop :=
  ∀ key,
    find key (items (domains h')) = find key (items (domains h)) ∧
    find key (items (blocked h')) = find key (items (blocked h)) ∧
    find key (items (clients h')) = find key (items (clients h)).

(** The sum [getStatsTop] builds for [key] over the buckets [hs], through
    the counter [field] of each: buckets without the key add nothing. *)
Definition mergeStep (field : hourTop -> Cache) (key : string)
    (acc : option Z) (h : hourTop) : option Z :=
  match find key (items (field h)) with
  | Some (VInt n) => Some (wrap_int (default 0 acc + n))
  | _ => acc
  end.

Definition merged (field : hourTop -> Cache) (key : string)
    (hs : list hourTop) : option Z :=
  foldl (mergeStep field key) None hs.

(** The last [n] elements of a list. *)
Definition keepLast {A} (n : Z) (l : list A) : list A :=
  drop (length l - Z.to_nat n) l.

(** What the replay does with one record: it passes over it, appends its
    entry to the cache, stops on it with an error, ends the file at it, or
    never gets past it. *)
Inductive fate : Type :=
| Skipped
| Loaded (e : entry.logEntry)
| Stops
| Ends
| Stuck.

Definition fateOf {record : Type} (Decode : record -> option entry.logEntry)
    (Broken : record -> option bool)
    (Unpack : list byte -> option dns.Msg) (timeWindow : time.Duration)
    (now nowLoader : time.Time) (r : record) : fate :=
  match Decode r with
  | None =>
      match Broken r with
      | None => Skipped
      | Some false => Ends
      | Some true => Stuck
      end
  | Some e =>
      if decide (time.Sub nowLoader (entry.Time e) > timeWindow) then Skipped
      else if decide (length (entry.Question e) = 0%nat) then Skipped
      else if time.After (entry.Time e) now then Skipped
      else
        match Unpack (entry.Question e) with
        | None => Stops
        | Some q =>
            if decide (length (dns.Question q) = 1%nat) then Loaded e
            else Skipped
        end
  end.

(** A record the replay gets past: it is passed over or loaded. *)
Definition passable (f : fate) : Prop :=
  match f with
  | Skipped | Loaded _ => True
  | Stops | Ends | Stuck => False
  end.

Definition loaded {record : Type} (Decode : record -> option entry.logEntry)
    (Broken : record -> option bool)
    (Unpack : list byte -> option dns.Msg) (timeWindow : time.Duration)
    (now nowLoader : time.Time) (rs : list record) : list entry.logEntry :=
  omap (fun r =>
          match fateOf Decode Broken Unpack timeWindow now nowLoader r with
          | Loaded e => Some e
          | _ => None
          end) rs.

(** An entry the backfill of the statistics passes over: too old, without
    a question payload, or with a payload that does not unpack to a message
    of one question. *)
Definition passedOver (Unpack : list byte -> option dns.Msg)
    (validFrom : Z) (e : entry.logEntry) : Prop :=
  time.Unix (entry.Time e) < validFrom ∨
  length (entry.Question e) = 0%nat ∨
  Unpack (entry.Question e) = None ∨
  ∃ q, Unpack (entry.Question e) = Some q ∧ length (dns.Question q) ≠ 1%nat.

End spec.

(** ** The entry codec

    The records of the log file are written and read by a codec that is
    not in the two files.  The functions of package [querylog] above take
    it as the parameters [Encode] and [Decode]; this module gives the
    codec the design document describes, for the statements about what a
    codec with that contract carries. *)

Module codec.

Import entry.

(** Modelled from the spec: the record of the entry codec, which is not
    in the two files.  One record per line: a record is the text of a line
    without its newline. *)
Definition record : Type := list ascii.

Definition hexChar (n : N) : ascii :=
  ascii_of_N (if (n <? 10)%N then 48 + n else 87 + n)%N.

Definition hexValue (c : ascii) : option N :=
  let n := N_of_ascii c in
  if ((48 <=? n) && (n <=? 57))%N then Some (n - 48)%N
  else if ((97 <=? n) && (n <=? 102))%N then Some (n - 87)%N
  else None.

(** A byte is two hexadecimal digits. *)
Definition hexOfByte (b : byte) : list ascii :=
  [hexChar (Byte.to_N b / 16); hexChar (Byte.to_N b mod 16)].

Definition byteOfHex (hi lo : ascii) : option byte :=
  h ← hexValue hi; l ← hexValue lo; Byte.of_N (16 * h + l).

(** The end of a field. *)
Definition sep : ascii := ";"%char.

Fixpoint hexOf (bs : list byte) : list ascii :=
  match bs with
  | [] => []
  | b :: bs' => hexOfByte b ++ hexOf bs'
  end.

(** The payload of a field up to its end, and the text after it; [None]
    on a line that is cut or holds another character. *)
Fixpoint readHex (s : list ascii) : option (list byte * list ascii) :=
  match s with
  | [] => None
  | c :: s' =>
      if decide (c = sep) then Some ([], s')
      else
        match s' with
        | [] => None
        | c' :: s'' =>
            b ← byteOfHex c c';
            '(bs, rest) ← readHex s'';
            Some (b :: bs, rest)
        end
  end.

(** A field carries its name: [name=payload;]. *)
Definition field (name : string) (bs : list byte) : list ascii :=
  String.list_ascii_of_string name ++ "="%char :: hexOf bs ++ [sep].

Fixpoint expect (name s : list ascii) : option (list ascii) :=
  match name with
  | [] => Some s
  | c :: name' =>
      match s with
      | [] => None
      | c' :: s' => if decide (c = c') then expect name' s' else None
      end
  end.

Definition readField (name : string) (s : list ascii)
  : option (list byte * list ascii) :=
  s' ← expect (String.list_ascii_of_string name ++ ["="%char]) s;
  readHex s'.

(** Numbers and durations have one representation of fixed width: the
    eight bytes of the 64-bit two's complement value, the most significant
    first. *)
Definition byteOfN (n : N) : byte := default x00 (Byte.of_N n).

Fixpoint bytesOfN (k : nat) (n : N) : list byte :=
  match k with
  | O => []
  | S k' => bytesOfN k' (n / 256) ++ [byteOfN (n mod 256)]
  end.

Definition NOfBytes (bs : list byte) : N :=
  foldl (fun acc b => 256 * acc + Byte.to_N b)%N 0%N bs.

Definition bytesOfInt64 (z : Z) : list byte :=
  bytesOfN 8 (Z.to_N (z mod 2 ^ 64)).

Definition int64OfBytes (bs : list byte) : option Z :=
  if decide (length bs = 8%nat) then Some (wrap_int (Z.of_N (NOfBytes bs)))
  else None.

Definition bytesOfBool (b : bool) : list byte := [if b then x01 else x00].

Definition boolOfBytes (bs : list byte) : option bool :=
  match bs with
  | [x00] => Some false
  | [x01] => Some true
  | _ => None
  end.

(** Modelled from the spec: the valid entries, which the spec leaves to
    the codec.  The numeric fields are 64-bit, so an entry is valid when
    its reason, its timestamp and its duration are 64-bit values; the
    payloads and the strings are free. *)
Definition inInt64 (z : Z) : Prop := int_min <= z <= int_max.

Definition valid (e : logEntry) : Prop :=
  inInt64 (Reason (Result e)) ∧ inInt64 (Time e) ∧ inInt64 (Elapsed e).

Global Instance valid_dec e : Decision (valid e).
Proof. unfold valid, inInt64. apply _. Defined.

(** Modelled from the spec: [encode(entry) -> bytes] of the entry codec,
    which is not in the two files.  A self-describing line of named
    fields, every field closed by its delimiter; an entry that cannot be
    serialized is refused ([EncodeError]). *)
Definition encode (e : logEntry) : option record :=
  if decide (valid e) then
    Some (field "question" (Question e) ++
          field "answer" (Answer e) ++
          field "filtered" (bytesOfBool (IsFiltered (Result e))) ++
          field "reason" (bytesOfInt64 (Reason (Result e))) ++
          field "rule" (String.list_byte_of_string (Rule (Result e))) ++
          field "time" (bytesOfInt64 (Time e)) ++
          field "elapsed" (bytesOfInt64 (Elapsed e)) ++
          field "client" (String.list_byte_of_string (IP e)))
  else None.

(** Modelled from the spec: [decode(bytes) -> entry | DecodeError] of the
    entry codec, which is not in the two files.  A line that is cut, that
    holds another field or another character, or that goes on after the
    last field is refused ([DecodeError], here [None]). *)
Definition decode (r : record) : option logEntry :=
  '(question, r) ← readField "question" r;
  '(answer, r) ← readField "answer" r;
  '(filtered, r) ← readField "filtered" r;
  '(reason, r) ← readField "reason" r;
  '(rule, r) ← readField "rule" r;
  '(time_, r) ← readField "time" r;
  '(elapsed, r) ← readField "elapsed" r;
  '(client, r) ← readField "client" r;
  isFiltered ← boolOfBytes filtered;
  reason ← int64OfBytes reason;
  time_ ← int64OfBytes time_;
  elapsed ← int64OfBytes elapsed;
  match r with
  | [] =>
      Some {| Question := question; Answer := answer;
              Result := {| IsFiltered := isFiltered; Reason := reason;
                           Rule := String.string_of_list_byte rule |};
              Time := time_; Elapsed := elapsed;
              IP := String.string_of_list_byte client |}
  | _ :: _ => None
  end.

End codec.

(** ** Instances of the outside functions, for the closed examples *)

Module sample.

(** Whole hours by integer division, which is what the [float64]
    computation gives on durations of a few thousand hours. *)
Definition hoursOf (d : time.Duration) : Z := Z.quot d time.Hour.

(** A record of the log is the document of an entry, or a well-formed
    value of another shape, which the decoder refuses and passes over. *)
Definition record : Type := option entry.logEntry.
Definition Encode (e : entry.logEntry) : option record := Some (Some e).
Definition Decode (r : record) : option entry.logEntry := r.
Definition Broken (r : record) : option bool := None.

(** The same records when the one that does not decode is a cut line. *)
Definition BrokenLine (r : record) : option bool :=
  match r with None => Some true | Some _ => None end.

Definition string_of_bytes (bs : list byte) : string :=
  String.string_of_list_ascii (map ascii_of_byte bs).

(** A domain name of the wire format, without compression: labels prefixed
    by their length, closed by a zero byte. *)
Fixpoint name (fuel : nat) (bs : list byte) : option (string * list byte) :=
  match fuel, bs with
  | S fuel', n :: rest =>
      let k := Byte.to_nat n in
      if decide (k = 0%nat) then Some (""%string, rest)
      else if decide (k ≤ 63 ∧ k ≤ length rest)%nat then
        match name fuel' (drop k rest) with
        | Some (s, rest') =>
            Some ((string_of_bytes (take k rest) +:+ "." +:+ s)%string, rest')
        | None => None
        end
      else None
  | _, _ => None
  end.

Fixpoint questions (n : nat) (bs : list byte) : option (list dns.Question_) :=
  match n with
  | O => Some []
  | S n' =>
      match name (length bs) bs with
      | Some (s, t1 :: t0 :: c1 :: c0 :: rest) =>
          let q := {| dns.Name := if decide (s = ""%string) then "."%string else s;
                      dns.Qtype := Z.of_nat (256 * Byte.to_nat t1 + Byte.to_nat t0);
                      dns.Qclass := Z.of_nat (256 * Byte.to_nat c1 + Byte.to_nat c0) |} in
          match questions n' rest with
          | Some qs => Some (q :: qs)
          | None => None
          end
      | _ => None
      end
  end.

(** The header (twelve bytes, the question count in the fifth and sixth)
    and the question section of a message. *)
Definition Unpack (bs : list byte) : option dns.Msg :=
  match bs with
  | _ :: _ :: _ :: _ :: qd1 :: qd0 :: _ :: _ :: _ :: _ :: _ :: _ :: body =>
      match questions (256 * Byte.to_nat qd1 + Byte.to_nat qd0)%nat body with
      | Some qs => Some {| dns.Question := qs |}
      | None => None
      end
  | _ => None
  end.

(** The query for [Ads.Example.], type A, class IN. *)
Definition adsQuestion : list byte :=
  [x00; x01; x01; x00; x00; x01; x00; x00; x00; x00; x00; x00;
   x03; x41; x64; x73; x07; x45; x78; x61; x6d; x70; x6c; x65; x00;
   x00; x01; x00; x01].

(** An entry of the current hour, blocked, from a known client. *)
Definition adsEntry : entry.logEntry :=
  {| entry.Question := adsQuestion; entry.Answer := [];
     entry.Result := {| entry.IsFiltered := true; entry.Reason := 3;
                        entry.Rule := "||ads.example^" |};
     entry.Time := 1000 * time.Second; entry.Elapsed := 5000000;
     entry.IP := "192.168.1.10" |}.

(** An entry whose question payload is one byte and cannot be unpacked. *)
Definition brokenEntry : entry.logEntry :=
  {| entry.Question := [x01]; entry.Answer := [];
     entry.Result := {| entry.IsFiltered := false; entry.Reason := 0;
                        entry.Rule := "" |};
     entry.Time := 900 * time.Second; entry.Elapsed := 1000000;
     entry.IP := "192.168.1.11" |}.

Definition log : querylog.queryLog :=
  {| querylog.conf := {| querylog.Interval := 24 * time.Hour |};
     querylog.logFile := "querylog.json";
     querylog.logBuffer := [adsEntry];
     querylog.flushPending := true;
     querylog.queryLogCache := [] |}.

(** The supported retention intervals, in days. *)
Definition checkStatsInterval (i : Z) : bool :=
  bool_decide (i = 1 ∨ i = 7 ∨ i = 30 ∨ i = 90).

Definition decodeBody (body : list byte) : option home.qlogConfig :=
  match body with
  | [enabled; interval] =>
      Some {| home.Enabled := bool_decide (enabled ≠ x00);
              home.Interval := Z.of_nat (Byte.to_nat interval) |}
  | _ => None
  end.

(** A ring of two hours with counts in both. *)
Definition ring : dnsforward.dayTop :=
  {| dnsforward.limit := 2;
     dnsforward.hours :=
       [ {| dnsforward.domains :=
              {| gcache.size := 500;
                 gcache.items := [("ads.example"%string, gcache.VInt 2);
                                  ("example.org"%string, gcache.VInt 1)] |};
            dnsforward.blocked :=
              {| gcache.size := 500;
                 gcache.items := [("ads.example"%string, gcache.VInt 2)] |};
            dnsforward.clients :=
              {| gcache.size := 500;
                 gcache.items := [("192.168.1.10"%string, gcache.VInt 3)] |} |};
         {| dnsforward.domains :=
              {| gcache.size := 500;
                 gcache.items := [("ads.example"%string, gcache.VInt 1)] |};
            dnsforward.blocked := gcache.New 500;
            dnsforward.clients :=
              {| gcache.size := 500;
                 gcache.items := [("192.168.1.11"%string, gcache.VInt 1)] |} |} ] |}.

End sample.

(** * Properties *)

Import gcache dnsforward spec.

(** ** The LRU cache and the counters *)

Section CacheFacts.

Lemma find_remove_eq key l : find key (remove key l) = None.
Proof.
  induction l as [|[k v] l IH]; simpl; [done|].
  destruct (decide (k = key)) as [->|Hne]; simpl; [done|].
  by rewrite decide_False.
Qed.

Lemma find_remove_ne key k l : k ≠ key → find k (remove key l) = find k l.
Proof.
  intros Hne. induction l as [|[k' v] l IH]; simpl; [done|].
  destruct (decide (k' = key)) as [->|Hk'].
  - rewrite decide_False by congruence. exact IH.
  - simpl. destruct (decide (k' = k)); [done | exact IH].
Qed.

Lemma find_removelast k l w :
  find k (removelast l) = Some w → find k l = Some w.
Proof.
  induction l as [|[k' v] l IH]; simpl; [done|].
  destruct l as [|p l']; [done|].
  change (find k ((k', v) :: removelast (p :: l')) = Some w →
          find k ((k', v) :: p :: l') = Some w).
  simpl find at 1. intros H.
  change (find k ((k', v) :: p :: l')) with
    (if decide (k' = k) then Some v else find k (p :: l')).
  destruct (decide (k' = k)); [done | by apply IH].
Qed.

Lemma Get_value key c : (Get key c).1 = find key (items c).
Proof. unfold Get. by destruct (find key (items c)). Qed.

Lemma Get_find key k c : find k (items (Get key c).2) = find k (items c).
Proof.
  unfold Get. destruct (find key (items c)) as [v|] eqn:Hf; simpl; [|done].
  destruct (decide (key = k)) as [->|Hne]; [done|].
  by apply find_remove_ne.
Qed.

Lemma Get_size key c : size (Get key c).2 = size c.
Proof. unfold Get. by destruct (find key (items c)). Qed.

Lemma Set_find_eq key v c : find key (items (Set_ key v c)) = Some v.
Proof.
  unfold Set_. destruct (find key (items c)); simpl; by rewrite decide_True.
Qed.

(** A [Set] of one key leaves every other key with the value it had, or
    without an item when it was the one evicted. *)
Lemma Set_find_ne key k v c w :
  k ≠ key → find k (items (Set_ key v c)) = Some w → find k (items c) = Some w.
Proof.
  intros Hne. unfold Set_.
  destruct (find key (items c)); simpl; rewrite decide_False by congruence.
  - by rewrite find_remove_ne.
  - destruct (decide _); [apply find_removelast | done].
Qed.

Lemma count_find key c :
  count key c =
  match find key (items c) with Some (VInt n) => n | _ => 0 end.
Proof.
  unfold count, lockedGetValue.
  pose proof (Get_value key c) as Hv.
  destruct (Get key c) as [o c1]. simpl in Hv. subst o.
  by destruct (find key (items c)) as [[n|s]|].
Qed.

(** What one [incrementValue] does to its own key. *)
Lemma incrementValue_key key c :
  match find key (items c) with
  | None =>
      (incrementValue key c).1 = None ∧
      find key (items (incrementValue key c).2) = Some (VInt 1)
  | Some (VInt n) =>
      (incrementValue key c).1 = None ∧
      find key (items (incrementValue key c).2) = Some (VInt (wrap_int (n + 1)))
  | Some (VOther s) =>
      (incrementValue key c).1 ≠ None ∧
      find key (items (incrementValue key c).2) = Some (VOther s)
  end.
Proof.
  unfold incrementValue.
  pose proof (Get_value key c) as Hv. pose proof (Get_find key key c) as Hf.
  destruct (Get key c) as [o c1]. simpl in Hv, Hf. subst o.
  destruct (find key (items c)) as [[n|s]|]; simpl;
    rewrite ?Set_find_eq; by auto.
Qed.

(** ... and to the other keys. *)
Lemma incrementValue_other key k c w :
  k ≠ key →
  find k (items (incrementValue key c).2) = Some w →
  find k (items c) = Some w.
Proof.
  intros Hne. unfold incrementValue.
  pose proof (Get_find key k c) as Hf.
  destruct (Get key c) as [[[n|s]|] c1]; simpl in *; rewrite <- Hf;
    try done; by apply Set_find_ne.
Qed.

Lemma incrementValue_count key c :
  intValued c →
  (incrementValue key c).1 = None ∧
  count key (incrementValue key c).2 = wrap_int (count key c + 1).
Proof.
  intros Hint. pose proof (incrementValue_key key c) as H.
  rewrite !count_find.
  destruct (find key (items c)) as [[n|s]|] eqn:Hf.
  - destruct H as [-> ->]. done.
  - by destruct (Hint key s).
  - destruct H as [-> ->]. done.
Qed.

Lemma incrementValue_intValued key c :
  intValued c → intValued (incrementValue key c).2.
Proof.
  intros Hint k s Hk. destruct (decide (k = key)) as [->|Hne].
  - pose proof (incrementValue_key key c) as H.
    destruct (find key (items c)) as [[n|s']|] eqn:Hf.
    + destruct H as [_ H]. congruence.
    + by destruct (Hint key s').
    + destruct H as [_ H]. congruence.
  - apply incrementValue_other in Hk; [|done]. by destruct (Hint k s).
Qed.

Lemma New_intValued n : intValued (New n).
Proof. by intros key s. Qed.

End CacheFacts.

(** ** The bucket ring: [dayTop.init] and [rotateHourlyTop] *)

Section Ring.

Variable queryLogTopSize : Z.

Lemma freshHours_length n :
  0 <= n → Z.of_nat (length (freshHours queryLogTopSize n)) = n.
Proof. intros Hn. unfold freshHours. rewrite length_replicate. lia. Qed.

(** Growing keeps every bucket and appends empty ones, up to the new limit. *)
Lemma dayTop_init_grow n d :
  Z.of_nat (length (hours d)) = limit d → limit d <= n →
  ∃ d', dayTop_init queryLogTopSize n d = Ret d' ∧ limit d' = n ∧
        Z.of_nat (length (hours d')) = n ∧
        take (length (hours d)) (hours d') = hours d.
Proof.
  intros Hlen Hle. unfold dayTop_init.
  assert (0 <= n) as Hn by lia.
  pose proof (freshHours_length n Hn) as Hfresh.
  destruct (decide (length (hours d) = 0%nat)) as [H0|H0].
  - eexists; split; [done|]. cbn [limit hours]. rewrite H0, take_0.
    by destruct (hours d).
  - destruct (decide (n > limit d)).
    + unfold slice_to. rewrite decide_True by lia.
      eexists; split; [done|]. cbn [limit hours]. split; [done|].
      rewrite length_app, length_take. split; [lia|].
      by rewrite take_app_length.
    + rewrite decide_False by lia.
      eexists; split; [done|]. cbn [limit hours]. split; [done|].
      split; [lia|]. by rewrite firstn_all.
Qed.

(** The hourly rotation keeps the bucket count at the limit. *)
Lemma rotateHourlyTop_length d :
  Z.of_nat (length (hours d)) = limit d →
  ∃ d', rotateHourlyTop queryLogTopSize d = Ret d' ∧ limit d' = limit d ∧
        Z.of_nat (length (hours d')) = limit d ∧
        hours d' = take (length (hours d)) (hourTop_init queryLogTopSize :: hours d).
Proof.
  intros Hlen. unfold rotateHourlyTop, slice_to.
  rewrite decide_True by (simpl; lia). simpl.
  eexists; split; [done|]. simpl. split; [done|].
  rewrite <- Hlen, Nat2Z.id. split; [|done].
  rewrite length_take. simpl. lia.
Qed.

(** Shrinking, as written: the slice is cut at the old limit minus the
    new one. *)
Lemma dayTop_init_shrink n d :
  Z.of_nat (length (hours d)) = limit d → 0 <= n < limit d →
  dayTop_init queryLogTopSize n d =
    Ret {| limit := n; hours := take (Z.to_nat (limit d - n)) (hours d) |}.
Proof.
  intros Hlen Hn. unfold dayTop_init.
  rewrite decide_False by lia. rewrite decide_False by lia.
  rewrite decide_True by lia. unfold slice_to. by rewrite decide_True by lia.
Qed.

(** From four buckets down to three, one bucket is left; an entry of the
    hour before, inside the new limit, then finds no bucket. *)
Lemma dayTop_init_shrink_then_addEntry (hoursOf : time.Duration → Z)
    (e : entry.logEntry) (now : time.Time) :
  hoursOf (time.Sub now (entry.Time e)) = 1 →
  (d4 ← dayTop_init queryLogTopSize 4 dayTop_zero;
   d3 ← dayTop_init queryLogTopSize 3 d4;
   addEntry hoursOf e (dns.mkMsg [dns.mkQuestion "example.org." 1 1]) now d3)
  = Panic.
Proof.
  intros Hhour.
  change (dayTop_init queryLogTopSize 4 dayTop_zero)
    with (Ret {| limit := 4; hours := freshHours queryLogTopSize 4 |}).
  cbn [mbind res_bind].
  rewrite dayTop_init_shrink; [| reflexivity | cbn [limit]; lia].
  cbn [mbind res_bind]. unfold addEntry. rewrite Hhour. reflexivity.
Qed.

(** C2.  A ring of three buckets, marked by the keys they hold, resized to
    the limit 1: [init] cuts the slice at [d.limit-limit = 2] instead of
    [limit = 1], so two buckets stay, the count differs from the limit, and
    the bucket of the hour before is kept where it should be dropped. *)
Theorem dayTop_init_shrink_keeps_old_minus_new :
  let bucket (name : string) :=
    {| domains := {| size := queryLogTopSize; items := [(name, VInt 1)] |};
       blocked := New queryLogTopSize;
       clients := New queryLogTopSize |} in
  let d := {| limit := 3; hours := [bucket "h0"; bucket "h1"; bucket "h2"] |} in
  Z.of_nat (length (hours d)) = limit d ∧
  dayTop_init queryLogTopSize 1 d =
    Ret {| limit := 1; hours := [bucket "h0"; bucket "h1"] |}.
Proof. split; reflexivity. Qed.

End Ring.

(** ** [addEntry] *)

Section AddEntry.

Variable hoursOf : time.Duration → Z.

(** C7.  An entry whose age in whole hours, [int(now.Sub(entry.Time).Hours())],
    has reached the retention limit is ignored: [addEntry] returns [nil]
    and the aggregator, every counter of every bucket, is as it was. *)
Theorem addEntry_too_old (e : entry.logEntry) (q : dns.Msg) (now : time.Time)
    (d : dayTop) :
  hoursOf (time.Sub now (entry.Time e)) >= limit d →
  addEntry hoursOf e q now d = Ret (None, d).
Proof. intros Hold. unfold addEntry. by rewrite decide_True. Qed.

Lemma queryName_Some q name :
  queryName q = Some name →
  ∃ q0 qs, dns.Question q = q0 :: qs ∧
    gostrings.ToLower (gostrings.TrimSuffix (dns.Name q0) ".") = name ∧
    name ≠ ""%string.
Proof.
  unfold queryName. destruct (dns.Question q) as [|q0 qs]; [done|].
  destruct (decide _) as [|Hne]; [done|]. intros [= <-]. eauto.
Qed.

Lemma addEntry_counted e q now d h name :
  let hour := hoursOf (time.Sub now (entry.Time e)) in
  0 <= hour < limit d →
  hours d !! Z.to_nat hour = Some h →
  queryName q = Some name →
  intValued (domains h) → intValued (blocked h) → intValued (clients h) →
  addEntry hoursOf e q now d = Ret (None, setHour d hour (counted e name h)).
Proof.
  intros hour Hhour Hh Hq Hd Hb Hc.
  apply queryName_Some in Hq as (q0 & qs & Hqs & Hname & Hne).
  unfold addEntry. fold hour. rewrite decide_False by lia.
  rewrite Hqs, Hname, decide_False by done.
  unfold index. rewrite decide_True by lia. rewrite Hh. cbn [mbind res_bind].
  unfold incrementDomains, incrementBlocked, incrementClients, counted.
  destruct (incrementValue_count name _ Hd) as [Ed _].
  destruct (incrementValue name (domains h)) as [err1 c1]. simpl in Ed. subst err1.
  cbn [domains blocked clients snd].
  assert (String.length (entry.IP e) = 0%nat ↔ entry.IP e = ""%string) as Hip.
  { destruct (entry.IP e); simpl; split; congruence. }
  destruct (entry.IsFiltered (entry.Result e)).
  - destruct (incrementValue_count name _ Hb) as [Eb _].
    destruct (incrementValue name (blocked h)) as [err2 c2]. simpl in Eb. subst err2.
    cbn [domains blocked clients snd].
    destruct (decide (entry.IP e = ""%string)) as [Hi|Hi].
    + rewrite decide_False by (apply Hip in Hi; lia). done.
    + rewrite decide_True by (apply Nat.neq_0_lt_0; intros ?; apply Hi, Hip; done).
      destruct (incrementValue_count (entry.IP e) _ Hc) as [Ec _].
      destruct (incrementValue (entry.IP e) (clients h)) as [err3 c3].
      simpl in Ec. subst err3. done.
  - destruct (decide (entry.IP e = ""%string)) as [Hi|Hi].
    + rewrite decide_False by (apply Hip in Hi; lia). done.
    + rewrite decide_True by (apply Nat.neq_0_lt_0; intros ?; apply Hi, Hip; done).
      cbn [domains blocked clients snd].
      destruct (incrementValue_count (entry.IP e) _ Hc) as [Ec _].
      destruct (incrementValue (entry.IP e) (clients h)) as [err3 c3].
      simpl in Ec. subst err3. done.
Qed.

(** C6.  An entry of hour [hour], inside the retention window, whose
    message has a query name: [addEntry] returns [nil]; in the bucket
    [hour] the domain count of the lowercased name without its final dot
    is one more; the blocked count of that name is one more when the entry
    is filtered, and the blocked counter is untouched when it is not; the
    client count is one more when the client is not empty, and the client
    counter is untouched when it is; no other bucket changes. *)
Theorem addEntry_increments (e : entry.logEntry) (q : dns.Msg) (q0 : dns.Question_)
    (qs : list dns.Question_) (now : time.Time) (d : dayTop) (h : hourTop) :
  let hour := hoursOf (time.Sub now (entry.Time e)) in
  let name := gostrings.ToLower (gostrings.TrimSuffix (dns.Name q0) ".") in
  0 <= hour < limit d →
  hours d !! Z.to_nat hour = Some h →
  dns.Question q = q0 :: qs →
  name ≠ ""%string →
  intValued (domains h) → intValued (blocked h) → intValued (clients h) →
  ∃ h',
    addEntry hoursOf e q now d =
      Ret (None, {| limit := limit d;
                    hours := <[Z.to_nat hour := h']> (hours d) |}) ∧
    count name (domains h') = wrap_int (count name (domains h) + 1) ∧
    (if entry.IsFiltered (entry.Result e)
     then count name (blocked h') = wrap_int (count name (blocked h) + 1)
     else blocked h' = blocked h) ∧
    (if decide (entry.IP e = ""%string)
     then clients h' = clients h
     else count (entry.IP e) (clients h') =
          wrap_int (count (entry.IP e) (clients h) + 1)).
Proof.
  intros hour name Hhour Hh Hqs Hne Hd Hb Hc.
  exists (counted e name h). split.
  - apply addEntry_counted; try done.
    unfold queryName. rewrite Hqs. fold name. by rewrite decide_False.
  - unfold counted. cbn [domains blocked clients]. split; [|split].
    + by apply incrementValue_count.
    + destruct (entry.IsFiltered _); [by apply incrementValue_count | done].
    + destruct (decide _); [done | by apply incrementValue_count].
Qed.

End AddEntry.

Lemma addEntry_too_old_witness :
  addEntry sample.hoursOf sample.adsEntry (dns.mkMsg [])
    (sample.adsEntry.(entry.Time) + 2 * time.Hour)
    {| limit := 2; hours := [hourTop_init 500; hourTop_init 500] |}
  = Ret (None, {| limit := 2; hours := [hourTop_init 500; hourTop_init 500] |}).
Proof. apply (addEntry_too_old sample.hoursOf). vm_compute. discriminate. Defined.

Lemma addEntry_increments_witness :
  ∃ h',
    addEntry sample.hoursOf sample.adsEntry
      (dns.mkMsg [dns.mkQuestion "Ads.Example." 1 1])
      (sample.adsEntry.(entry.Time) + 90 * 60 * time.Second)
      {| limit := 2; hours := [hourTop_init 500; hourTop_init 500] |} =
      Ret (None, {| limit := 2;
                    hours := <[1%nat := h']> [hourTop_init 500; hourTop_init 500] |}) ∧
    count "ads.example" (domains h') = 1 ∧
    count "ads.example" (blocked h') = 1 ∧
    count "192.168.1.10" (clients h') = 1.
Proof.
  destruct (addEntry_increments sample.hoursOf sample.adsEntry
              (dns.mkMsg [dns.mkQuestion "Ads.Example." 1 1])
              (dns.mkQuestion "Ads.Example." 1 1) []
              (sample.adsEntry.(entry.Time) + 90 * 60 * time.Second)
              {| limit := 2; hours := [hourTop_init 500; hourTop_init 500] |}
              (hourTop_init 500))
    as (h' & Hrun & Hd & Hb & Hc).
  - vm_compute. split; [discriminate | reflexivity].
  - reflexivity.
  - reflexivity.
  - vm_compute. discriminate.
  - apply New_intValued.
  - apply New_intValued.
  - apply New_intValued.
  - exists h'. split; [exact Hrun|]. split; [exact Hd|]. split; [exact Hb | exact Hc].
Defined.

(** ** Counts over a run of increments *)

Section Monotone.

(** One increment, seen from any key that does not lose its item: the
    count stays or grows by one. *)
Lemma incrementValue_step (key k : string) (c : Cache) :
  (resident key c → resident key (incrementValue k c).2) →
  int_min <= count key c < int_max →
  count key c <= count key (incrementValue k c).2 <= count key c + 1.
Proof.
  intros Hres Hmax. rewrite !count_find in *.
  destruct (decide (key = k)) as [->|Hne].
  - pose proof (incrementValue_key k c) as H.
    destruct (find k (items c)) as [[n|s]|] eqn:Hf.
    + destruct H as [_ ->]. unfold wrap_int, int_max, int_min in *.
      rewrite Z.mod_small by lia. lia.
    + destruct H as [_ ->]. lia.
    + destruct H as [_ ->]. lia.
  - destruct (find key (items (incrementValue k c).2)) as [w|] eqn:Hf'.
    + apply incrementValue_other in Hf'; [|done]. rewrite Hf'.
      destruct w; lia.
    + destruct (find key (items c)) as [v|] eqn:Hf; [|lia].
      exfalso. apply Hres; [|done]. unfold resident. by rewrite Hf.
Qed.

(** C8, as the code has it.  Over a run of [incrementValue] calls on one
    counter, the count read for a key does not decrease as long as the key
    never loses its item to the LRU eviction (and the count, an [int],
    stays below the largest one). *)
Theorem count_monotone_unless_evicted (keys : list string) (key : string)
    (c : Cache) :
  (∀ n, (n < length keys)%nat →
        resident key (incrementAll (take n keys) c) →
        resident key (incrementAll (take (S n) keys) c)) →
  int_min <= count key c →
  count key c + Z.of_nat (length keys) <= int_max →
  count key c <= count key (incrementAll keys c) <=
    count key c + Z.of_nat (length keys).
Proof.
  revert c. induction keys as [|k keys IH]; intros c Hres Hmin Hmax.
  - simpl. lia.
  - cbn [length] in Hmax. cbn [incrementAll].
    assert (count key c <= count key (incrementValue k c).2 <= count key c + 1)
      as Hstep.
    { apply incrementValue_step; [|lia]. apply (Hres 0%nat). simpl. lia. }
    specialize (IH (incrementValue k c).2).
    cbn [length]. 
    assert (count key (incrementValue k c).2 <=
            count key (incrementAll keys (incrementValue k c).2) <=
            count key (incrementValue k c).2 + Z.of_nat (length keys)) as Hrest.
    { apply IH; [|lia|lia]. intros n Hn. apply (Hres (S n)). simpl. lia. }
    lia.
Qed.

End Monotone.

Lemma count_monotone_unless_evicted_witness :
  count "a" (New 2) <= count "a" (incrementAll ["a"; "b"; "a"]%string (New 2))
    <= count "a" (New 2) + 3.
Proof.
  apply (count_monotone_unless_evicted ["a"; "b"; "a"]%string "a"%string (New 2)).
  - intros n Hn _. simpl in Hn.
    destruct n as [|[|[|n]]]; [by vm_compute..|lia].
  - by vm_compute.
  - by vm_compute.
Defined.

(** C8, as the claim has it, fails: in a counter of capacity two, the key
    [a] reads 1 after its increment and 0 after the increments of [b] and
    [c], the second of which evicts it. *)
Lemma count_decreases_on_eviction :
  let c := incrementAll ["a"]%string (New 2) in
  count "a" c = 1 ∧
  count "a" (incrementAll ["b"; "c"]%string c) = 0 ∧
  count "a" (incrementAll ["b"; "c"]%string c) < count "a" c.
Proof. by vm_compute. Qed.

(** ** Counting one domain within the current hour *)

Section SameDomain.

Variable queryLogTopSize : Z.
Variable hoursOf : time.Duration → Z.

Lemma incrementValue_single name k sz :
  items (incrementValue name
           {| size := sz;
              items := match k with O => [] | S _ => [(name, VInt (Z.of_nat k))] end |}).2
  = [(name, VInt (if decide (k = 0%nat) then 1 else wrap_int (Z.of_nat k + 1)))].
Proof.
  destruct k as [|k]; unfold incrementValue, Get, Set_; cbn [items size find].
  - cbn [fst snd items size find length].
    by destruct (decide (sz <= _)).
  - rewrite (decide_True (P := name = name)) by done.
    cbn [fst snd items size find remove].
    rewrite !(decide_True (P := name = name)) by done. cbn [items remove].
    rewrite ?(decide_True (P := name = name)) by done.
    by rewrite decide_False.
Qed.

Lemma addEntry_headCounts name k e q now d :
  hoursOf (time.Sub now (entry.Time e)) = 0 →
  queryName q = Some name →
  Z.of_nat k < int_max →
  headCounts name k d →
  ∃ d', addEntry hoursOf e q now d = Ret (None, d') ∧ headCounts name (S k) d'.
Proof.
  intros Hhour Hq Hk (Hlim & h & rest & Hhs & Hitems & Hb & Hc).
  assert (intValued (domains h)) as Hd.
  { intros key s. rewrite Hitems. destruct k; simpl; [done|].
    destruct (decide _); done. }
  eexists. split.
  - apply addEntry_counted with (h := h) (name := name); rewrite ?Hhour;
      try done. by rewrite Hhs.
  - rewrite Hhour. unfold setHour, headCounts. cbn [limit hours]. split; [done|].
    rewrite Hhs. cbn [Z.to_nat]. simpl (<[_:=_]> _).
    eexists _, rest. split; [done|]. unfold counted. cbn [domains blocked clients].
    split; [|split].
    + destruct (domains h) as [sz its]. cbn [items] in Hitems. subst its.
      rewrite incrementValue_single. do 3 f_equal.
      destruct (decide (k = 0%nat)) as [->|_]; [done|].
      unfold wrap_int, int_max in *. rewrite Z.mod_small by lia. lia.
    + destruct (entry.IsFiltered _); [by apply incrementValue_intValued | done].
    + destruct (decide _); [done | by apply incrementValue_intValued].
Qed.

Lemma addEntries_headCounts name es : ∀ k d,
  Forall (λ x : entry.logEntry * dns.Msg * time.Time,
            hoursOf (time.Sub x.2 (entry.Time x.1.1)) = 0 ∧
            queryName x.1.2 = Some name) es →
  Z.of_nat (k + length es) <= int_max →
  headCounts name k d →
  ∃ d', addEntries hoursOf es d = Ret (None, d') ∧
        headCounts name (k + length es) d'.
Proof.
  induction es as [|[[e q] now] es IH]; intros k d Hall Hmax Hinv.
  - exists d. rewrite Nat.add_0_r. done.
  - apply Forall_cons in Hall as [[Hhour Hq] Hall]. cbn [length] in *.
    destruct (addEntry_headCounts name k e q now d) as (d1 & Hrun & Hinv1);
      [done | done | lia | done |].
    destruct (IH (S k) d1) as (d' & Hrest & Hinv'); [done | lia | done |].
    exists d'. cbn [addEntries]. rewrite Hrun. cbn [mbind res_bind].
    rewrite Hrest. split; [done|].
    by replace (k + S (length es))%nat with (S k + length es)%nat by lia.
Qed.

Lemma statsOfHour_Domains h s :
  Domains (statsOfHour h s).1 = (do_ (Keys (domains h)) (domains h) (Domains s)).1.
Proof.
  unfold statsOfHour.
  destruct (do_ (Keys (domains h)) _ _), (do_ (Keys (blocked h)) _ _),
    (do_ (Keys (clients h)) _ _). done.
Qed.

Lemma getStatsTop_headCounts name k d :
  Z.of_nat k <= int_max →
  headCounts name k d →
  default 0 (Domains (getStatsTop 1 d).1 !! name) = Z.of_nat k.
Proof.
  intros Hk (_ & h & rest & Hhs & Hitems & _).
  unfold getStatsTop. rewrite Hhs. cbn [length].
  rewrite decide_False by lia. change (Z.to_nat 1) with 1%nat.
  cbn [statsLoop].
  pose proof (statsOfHour_Domains h
    {| Domains := ∅; Blocked := ∅; Clients := ∅ |}) as HD.
  destruct (statsOfHour h _) as [s1 h1]. cbn [statsLoop fst Domains] in *.
  rewrite HD.
  destruct (domains h) as [sz its]. cbn [items] in Hitems. subst its.
  destruct k as [|k]; unfold Keys; cbn [items fmap list_fmap fst do_].
  - done.
  - unfold lockedGetValue, Get. cbn [items find]. rewrite decide_True by done.
    cbn [do_ fst]. rewrite lookup_empty. cbn [default].
    rewrite lookup_insert_eq. cbn [default]. unfold id.
    unfold wrap_int, int_max in *. rewrite Z.mod_small by lia. lia.
Qed.

(** C5.  From an aggregator just initialised with at least one bucket,
    record [N] entries, each of the current hour (age 0 in whole hours) and
    each with the query name [name], [N] not above the capacity of a
    counter: every [addEntry] returns [nil], and [getStatsTop(1)] reports
    exactly [N] for [name] in [Domains]. *)
Theorem same_domain_counted_exactly (limit_ : Z) (name : string)
    (es : list (entry.logEntry * dns.Msg * time.Time)) :
  0 < limit_ →
  Z.of_nat (length es) <= queryLogTopSize <= int_max →
  Forall (λ x : entry.logEntry * dns.Msg * time.Time,
            hoursOf (time.Sub x.2 (entry.Time x.1.1)) = 0 ∧
            queryName x.1.2 = Some name) es →
  ∃ d0 d,
    dayTop_init queryLogTopSize limit_ dayTop_zero = Ret d0 ∧
    addEntries hoursOf es d0 = Ret (None, d) ∧
    default 0 (Domains (getStatsTop 1 d).1 !! name) = Z.of_nat (length es).
Proof.
  intros Hlim HN Hall.
  assert (headCounts name 0
            {| limit := limit_; hours := freshHours queryLogTopSize limit_ |})
    as Hinv.
  { split; [done|]. unfold freshHours.
    destruct (Z.to_nat limit_) as [|n] eqn:Hn; [lia|].
    eexists _, _. split; [done|]. split; [done|].
    split; apply New_intValued. }
  destruct (addEntries_headCounts name es 0%nat
              {| limit := limit_; hours := freshHours queryLogTopSize limit_ |} Hall)
    as (d & Hrun & Hinv'); [simpl; lia | exact Hinv |].
  eexists _, d. split; [done|]. split; [exact Hrun|].
  apply getStatsTop_headCounts in Hinv'; [done | simpl in *; lia].
Qed.

End SameDomain.

Lemma same_domain_counted_exactly_witness :
  let q := dns.mkMsg [dns.mkQuestion "Example.COM." 1 1] in
  let now := sample.adsEntry.(entry.Time) + 10 * time.Second in
  ∃ d0 d,
    dayTop_init 500 24 dayTop_zero = Ret d0 ∧
    addEntries sample.hoursOf
      [(sample.adsEntry, q, now); (sample.brokenEntry, q, now);
       (sample.adsEntry, q, now + time.Second)] d0 = Ret (None, d) ∧
    default 0 (Domains (getStatsTop 1 d).1 !! "example.com"%string) = 3.
Proof.
  intros q now.
  apply (same_domain_counted_exactly 500 sample.hoursOf 24 "example.com"%string
           [(sample.adsEntry, q, now); (sample.brokenEntry, q, now);
            (sample.adsEntry, q, now + time.Second)]).
  - reflexivity.
  - vm_compute. split; discriminate.
  - repeat constructor.
Defined.

(** ** The entry codec carries the valid entries *)

Section Codec.

Import codec.

Lemma byteOfHex_hexOfByte b :
  byteOfHex (hexChar (Byte.to_N b / 16)) (hexChar (Byte.to_N b mod 16))
    = Some b.
Proof. by destruct b. Qed.

Lemma hexChar_not_sep b : hexChar (Byte.to_N b / 16) ≠ sep.
Proof. by destruct b. Qed.

Lemma readHex_hexOf bs rest :
  readHex (hexOf bs ++ sep :: rest) = Some (bs, rest).
Proof.
  induction bs as [|b bs IH].
  - cbn [hexOf app readHex]. by rewrite decide_True.
  - cbn [hexOf hexOfByte app readHex].
    rewrite decide_False by apply hexChar_not_sep.
    by rewrite byteOfHex_hexOfByte, IH.
Qed.

Lemma expect_app name rest : expect name (name ++ rest) = Some rest.
Proof.
  induction name as [|c name IH]; cbn [expect app]; [done|].
  by rewrite decide_True.
Qed.

Lemma readField_field name bs rest :
  readField name (field name bs ++ rest) = Some (bs, rest).
Proof.
  unfold readField, field.
  replace ((String.list_ascii_of_string name ++ "="%char :: hexOf bs ++ [sep])
             ++ rest)
    with ((String.list_ascii_of_string name ++ ["="%char]) ++
          hexOf bs ++ sep :: rest)
    by (rewrite <- !app_assoc; cbn [app]; rewrite <- !app_assoc;
        reflexivity).
  rewrite expect_app. cbn [mbind option_bind]. apply readHex_hexOf.
Qed.

Lemma to_N_byteOfN n : (n < 256)%N → Byte.to_N (byteOfN n) = n.
Proof.
  intros Hn. unfold byteOfN.
  destruct (Byte.of_N n) as [b|] eqn:Hb.
  - cbn [default]. unfold id. by apply Byte.to_of_N.
  - apply Byte.of_N_None_iff in Hb. lia.
Qed.

Lemma length_bytesOfN k : ∀ n, length (bytesOfN k n) = k.
Proof.
  induction k as [|k IH]; intros n; cbn [bytesOfN]; [done|].
  rewrite length_app, IH. simpl. lia.
Qed.

Lemma NOfBytes_bytesOfN k : ∀ n,
  NOfBytes (bytesOfN k n) = (n mod 256 ^ N.of_nat k)%N.
Proof.
  induction k as [|k IH]; intros n; cbn [bytesOfN].
  - by rewrite N.mod_1_r.
  - unfold NOfBytes in *. rewrite foldl_app. cbn [foldl].
    rewrite IH, to_N_byteOfN by (apply N.mod_lt; lia).
    rewrite Nat2N.inj_succ, N.pow_succ_r'.
    rewrite N.Div0.mod_mul_r. lia.
Qed.

Lemma int64OfBytes_bytesOfInt64 z :
  inInt64 z → int64OfBytes (bytesOfInt64 z) = Some z.
Proof.
  unfold inInt64, int_min, int_max. intros Hz.
  unfold int64OfBytes, bytesOfInt64.
  rewrite decide_True by apply length_bytesOfN. f_equal.
  rewrite NOfBytes_bytesOfN.
  assert (0 <= z mod 2 ^ 64 < 2 ^ 64) as Hm by (apply Z.mod_pos_bound; lia).
  rewrite N.mod_small.
  - rewrite Z2N.id by lia. unfold wrap_int.
    rewrite Zplus_mod_idemp_l. rewrite Z.mod_small by lia. lia.
  - change (256 ^ N.of_nat 8)%N with (Z.to_N (2 ^ 64)).
    apply Z2N.inj_lt; lia.
Qed.

Lemma boolOfBytes_bytesOfBool b : boolOfBytes (bytesOfBool b) = Some b.
Proof. by destruct b. Qed.

(** The codec carries every valid entry: it encodes, and the line decodes
    to the entry. *)
Lemma decode_encode e :
  valid e → ∃ r, encode e = Some r ∧ decode r = Some e.
Proof.
  intros Hv. unfold encode. rewrite decide_True by done.
  eexists. split; [done|]. destruct Hv as (Hr & Ht & He).
  unfold decode.
  repeat (rewrite readField_field; cbn [mbind option_bind]).
  rewrite <- (app_nil_r (field "client" _)), readField_field.
  cbn [mbind option_bind].
  rewrite boolOfBytes_bytesOfBool. cbn [mbind option_bind].
  rewrite !int64OfBytes_bytesOfInt64 by done. cbn [mbind option_bind].
  rewrite !String.string_of_list_byte_of_string.
  by destruct e as [? ? [? ? ?] ? ? ?].
Qed.

(** An entry is refused exactly when it is not valid. *)
Lemma encode_None e : encode e = None ↔ ¬ valid e.
Proof. unfold encode. by destruct (decide (valid e)). Qed.

End Codec.

(** ** The flush: encoding, self-check, write *)

Section Flush.

Import querylog.

Context {record : Type}.
Variable Encode : entry.logEntry → option record.
Variable Decode : record → option entry.logEntry.
Variable logBufferCap : Z.

Lemma encodeAll_length buffer b :
  encodeAll Encode buffer = Some b → length b = length buffer.
Proof.
  revert b. induction buffer as [|e buffer IH]; intros b; simpl.
  - by intros [= <-].
  - destruct (Encode e); [|done]. destruct (encodeAll Encode buffer); [|done].
    intros [= <-]. simpl. f_equal. by apply IH.
Qed.

Lemma encodeAll_valid buffer :
  Forall (valid Encode Decode) buffer →
  ∃ b, encodeAll Encode buffer = Some b ∧ Decode <$> b = Some <$> buffer.
Proof.
  induction 1 as [|e buffer (r & Henc & Hdec) _ (b & Hb & Hmap)];
    cbn [encodeAll].
  - by exists [].
  - exists (r :: b). rewrite Henc, Hb. split; [done|].
    by rewrite !fmap_cons, Hdec, Hmap.
Qed.

(** The loop of [checkBuffer] ends without an error exactly when record
    [n] of [b] decodes to entry [i + n] of the buffer, for every record;
    the index has then advanced by the number of records. *)
Lemma checkLoop_pass buffer b : ∀ i j,
  checkLoop Decode buffer b i = Ret (None, j) →
  j = (i + length b)%nat ∧
  Decode <$> b = Some <$> take (length b) (drop i buffer).
Proof.
  induction b as [|r b IH]; intros i j; cbn [checkLoop length].
  - intros [= <-]. by rewrite Nat.add_0_r.
  - destruct (Decode r) as [e|] eqn:Hdec; [|done].
    unfold index. rewrite decide_True by lia. rewrite Nat2Z.id.
    destruct (buffer !! i) as [x|] eqn:Hx; [|done]. cbn [mbind res_bind].
    destruct (decide (e = x)) as [->|]; [|done].
    intros H. apply IH in H as (-> & Hmap).
    split; [lia|].
    rewrite (drop_S _ _ _ Hx). cbn [take]. by rewrite !fmap_cons, Hdec, Hmap.
Qed.

Lemma checkLoop_complete buffer b : ∀ i,
  Decode <$> b = Some <$> take (length b) (drop i buffer) →
  (i + length b ≤ length buffer)%nat →
  checkLoop Decode buffer b i = Ret (None, (i + length b)%nat).
Proof.
  induction b as [|r b IH]; intros i Hmap Hlen; cbn [checkLoop length] in *.
  - by rewrite Nat.add_0_r.
  - destruct (buffer !! i) as [x|] eqn:Hx;
      [|apply lookup_ge_None in Hx; lia].
    rewrite (drop_S _ _ _ Hx) in Hmap. cbn [take] in Hmap.
    rewrite !fmap_cons in Hmap.
    injection Hmap as Hdec Hmap. rewrite Hdec.
    unfold index. rewrite decide_True by lia. rewrite Nat2Z.id, Hx.
    cbn [mbind res_bind]. rewrite decide_True by done.
    rewrite IH; [|done|lia]. do 2 f_equal. lia.
Qed.

(** As long as the records are no more than the entries from [i] on, the
    index stays inside the buffer and the loop does not panic. *)
Lemma checkLoop_returns buffer b : ∀ i,
  (i + length b ≤ length buffer)%nat →
  ∃ r, checkLoop Decode buffer b i = Ret r.
Proof.
  induction b as [|r b IH]; intros i Hlen; simpl in *; [by eauto|].
  destruct (Decode r) as [e|]; [|by eauto].
  unfold index. rewrite decide_True by lia. rewrite Nat2Z.id.
  destruct (buffer !! i) as [x|] eqn:Hx; [|apply lookup_ge_None in Hx; lia].
  cbn [mbind res_bind]. destruct (decide (e = x)); [|by eauto].
  apply IH. lia.
Qed.

Lemma checkBuffer_pass_iff buffer b :
  checkBuffer Decode buffer b = Ret None ↔ Decode <$> b = Some <$> buffer.
Proof.
  unfold checkBuffer. split.
  - destruct (checkLoop Decode buffer b 0) as [[[err|] i]|] eqn:Hloop;
      cbn [mbind res_bind]; [done| |done].
    destruct (decide (i ≠ length buffer)) as [|Hi]; [done|]. intros _.
    apply dec_stable in Hi. apply checkLoop_pass in Hloop as (Hj & Hmap).
    simpl in Hj. rewrite Hmap, drop_0. f_equal. apply take_ge. lia.
  - intros Hmap.
    assert (length b = length buffer) as Hlen.
    { by rewrite <- (length_fmap Decode), Hmap, length_fmap. }
    rewrite (checkLoop_complete buffer b 0%nat).
    + cbn [mbind res_bind]. rewrite decide_False; [done|]. simpl. lia.
    + rewrite drop_0, Hlen, take_ge by lia. done.
    + lia.
Qed.

Lemma checkBuffer_returns buffer b :
  length b = length buffer → ∃ err, checkBuffer Decode buffer b = Ret err.
Proof.
  intros Hlen. unfold checkBuffer.
  destruct (checkLoop_returns buffer b 0%nat) as [[err i] ->]; [lia|].
  cbn [mbind res_bind]. destruct err; [by eauto|].
  destruct (decide _); by eauto.
Qed.

(** [flushToFile] always returns, and when it returns an error, the error
    comes from the encoding, from the self-check, or from the file. *)
Lemma flushToFile_returns l buffer fault fs :
  ∃ err fs', flushToFile Encode Decode l buffer fault fs = Ret (err, fs') ∧
    (err ≠ None →
       buffer ≠ [] ∧
       (encodeAll Encode buffer = None ∨
        (∃ b, encodeAll Encode buffer = Some b ∧
              checkBuffer Decode buffer b = Ret err) ∨
        fault ≠ NoFault)) ∧
    (err = None → buffer ≠ [] →
       ∃ b, encodeAll Encode buffer = Some b ∧
            checkBuffer Decode buffer b = Ret None ∧ fault = NoFault).
Proof.
  unfold flushToFile. destruct (decide (length buffer = 0%nat)) as [H0|H0].
  { eexists _, _. split; [done|]. split; [done|].
    intros _ Hne. by destruct buffer. }
  assert (buffer ≠ []) as Hne by (by intros ->).
  destruct (encodeAll Encode buffer) as [b|] eqn:Henc.
  - destruct (checkBuffer_returns buffer b) as [err Hchk];
      [by eapply encodeAll_length|].
    rewrite Hchk. cbn [mbind res_bind]. destruct err as [msg|].
    + eexists _, _. split; [done|]. split; [|done]. intros _. naive_solver.
    + unfold appendFile. destruct fault; eexists _, _; (split; [done|]);
        naive_solver.
  - eexists _, _. split; [done|]. split; [|done]. intros _. naive_solver.
Qed.

(** C1, as the code has it.  [flushLogBuffer] always returns.  When no
    flush is due (the buffer is below [logBufferCap] and the flush is not a
    full one) it returns [nil] and the store and the disk are as they were.
    When a flush is due, the pending buffer is reset to empty and the flag
    cleared before the attempt, whatever the attempt gives; then a failure
    returns its error: an entry that does not encode gives the error of the
    encoder and nothing is written, a self-check that fails gives its error
    and nothing is written, and when the self-check passes the error is the
    one of the file ([OpenFile] or [Write]), [nil] only when the file has
    no fault.  So whenever an error comes back, the batch that failed is no
    longer in the store, and the caller receives the error alone. *)
Theorem flush_failure_leaves_buffer_empty (fullFlush : bool)
    (l : queryLog) (fault : ioFault) (fs : disk record) :
  let due := fullFlush = true ∨ Z.of_nat (length (logBuffer l)) >= logBufferCap in
  let l0 := {| conf := conf l; logFile := logFile l; logBuffer := [];
               flushPending := false; queryLogCache := queryLogCache l |} in
  (¬ due →
     flushLogBuffer Encode Decode logBufferCap fullFlush l fault fs
       = Ret (None, l, fs)) ∧
  (due →
     ∃ err fs',
       flushLogBuffer Encode Decode logBufferCap fullFlush l fault fs
         = Ret (err, l0, fs') ∧
       (logBuffer l = [] → err = None ∧ fs' = fs) ∧
       (logBuffer l ≠ [] →
          match encodeAll Encode (logBuffer l) with
          | None => err = Some "marshal"%string ∧ fs' = fs
          | Some b =>
              ∃ chk, checkBuffer Decode (logBuffer l) b = Ret chk ∧
                match chk with
                | Some msg => err = Some msg ∧ fs' = fs
                | None =>
                    (err, fs') = appendFile fault (logFile l) b fs ∧
                    (err = None ↔ fault = NoFault)
                end
          end)) ∧
  (∀ msg l' fs',
     flushLogBuffer Encode Decode logBufferCap fullFlush l fault fs =
       Ret (Some msg, l', fs') →
     due ∧ l' = l0 ∧
     logBuffer l' = [] ∧ flushPending l' = false ∧ logBuffer l ≠ [] ∧
     (encodeAll Encode (logBuffer l) = None ∨
      (∃ b, encodeAll Encode (logBuffer l) = Some b ∧
            checkBuffer Decode (logBuffer l) b = Ret (Some msg)) ∨
      fault ≠ NoFault)).
Proof.
  intros due l0.
  assert (due ↔ (negb (bool_decide (Z.of_nat (length (logBuffer l))
                          >= logBufferCap)) && negb fullFlush)%bool = false)
    as Hdue.
  { unfold due. rewrite andb_false_iff, !negb_false_iff, bool_decide_eq_true.
    tauto. }
  unfold flushLogBuffer. fold l0.
  destruct (negb _ && negb fullFlush)%bool.
  { split; [done|]. split; [|done]. intros Hd. by apply Hdue in Hd. }
  assert due as Hd by (by apply Hdue).
  split; [done|].
  destruct (flushToFile_returns l0 (logBuffer l) fault fs)
    as (err & fs1 & Hrun & Herr & _).
  rewrite Hrun. cbn [mbind res_bind]. split.
  - intros _. exists err, fs1. split; [done|].
    revert Hrun. unfold flushToFile. cbn [enableGzip logFile l0].
    destruct (decide (length (logBuffer l) = 0%nat)) as [H0|H0].
    { intros [= <- <-]. split; [done|]. intros Hne.
      by destruct (logBuffer l). }
    intros Hrun. split; [by intros Hnil; rewrite Hnil in H0|]. intros _.
    revert Hrun.
    destruct (encodeAll Encode (logBuffer l)) as [b|] eqn:Henc;
      [|by intros [= <- <-]].
    destruct (checkBuffer_returns (logBuffer l) b) as [chk Hchk];
      [by eapply encodeAll_length|].
    rewrite Hchk. cbn [mbind res_bind]. intros Hrun.
    exists chk. split; [done|]. revert Hrun.
    destruct chk as [msg|]; [by intros [= <- <-]|].
    intros [= Happ]. split; [done|].
    revert Happ. unfold appendFile.
    destruct fault; intros [= <- <-]; split; done.
  - intros msg l' fs' [= -> <- <-]. cbn [logBuffer flushPending l0].
    destruct Herr as [Hne Hcause]; [done|]. done.
Qed.

End Flush.

(** What the self-check decides, for any codec.  The self-check passes
    exactly when the records decode to the batch, entry for entry and as
    many; a flush returns [nil] only for a batch whose self-check passes;
    and a flush of a batch whose records do not decode to it returns an
    error and writes nothing. *)
Lemma selfcheck_decides {record : Type}
    (Encode : entry.logEntry → option record)
    (Decode : record → option entry.logEntry)
    (l : querylog.queryLog) (buffer : list entry.logEntry) :
  (∀ b, querylog.checkBuffer Decode buffer b = Ret None ↔
        length b = length buffer ∧ Decode <$> b = Some <$> buffer) ∧
  (∀ fault fs fs',
     querylog.flushToFile Encode Decode l buffer fault fs = Ret (None, fs') →
     ∃ b, querylog.encodeAll Encode buffer = Some b ∧
          querylog.checkBuffer Decode buffer b = Ret None ∧
          Decode <$> b = Some <$> buffer) ∧
  (∀ b fault fs,
     querylog.encodeAll Encode buffer = Some b →
     Decode <$> b ≠ Some <$> buffer →
     ∃ msg, querylog.flushToFile Encode Decode l buffer fault fs
              = Ret (Some msg, fs)).
Proof.
  split; [|split].
  - intros b. rewrite checkBuffer_pass_iff. split; [|by intros [_ ?]].
    intros Hmap. split; [|done].
    by rewrite <- (length_fmap Decode), Hmap, length_fmap.
  - intros fault fs fs' Hflush.
    destruct buffer as [|e buffer']; [by exists []|].
    destruct (flushToFile_returns Encode Decode l (e :: buffer') fault fs)
      as (err & fs1 & Hrun & _ & Hok).
    rewrite Hrun in Hflush. injection Hflush as -> ->.
    destruct Hok as (b & Henc & Hchk & _); [done | done |].
    exists b. split; [done|]. split; [done|]. by apply checkBuffer_pass_iff.
  - intros b fault fs Henc Hmap. unfold querylog.flushToFile.
    destruct (decide (length buffer = 0%nat)) as [H0|H0].
    { destruct buffer; [|done]. injection Henc as <-. done. }
    rewrite Henc.
    destruct (checkBuffer_returns Decode buffer b) as [err Hchk];
      [by eapply encodeAll_length|].
    rewrite Hchk. cbn [mbind res_bind]. destruct err as [msg|]; [by eauto|].
    by apply checkBuffer_pass_iff in Hchk.
Qed.

(** C4.  For a batch of valid entries (the numeric fields within 64
    bits), the codec encodes the batch, and the records of the batch decode
    to the batch, entry for entry and as many: the self-check passes.  For
    any codec and any batch, the self-check passes exactly when the records
    decode to the batch, entry for entry and as many; a flush returns [nil]
    only for a batch whose self-check passes; and a flush of a batch whose
    records do not decode to it returns an error and writes nothing. *)
Theorem selfcheck_roundtrip {record : Type}
    (Encode : entry.logEntry → option record)
    (Decode : record → option entry.logEntry)
    (l : querylog.queryLog) (buffer : list entry.logEntry) :
  (Forall codec.valid buffer →
   ∃ b, querylog.encodeAll codec.encode buffer = Some b ∧
        length b = length buffer ∧
        codec.decode <$> b = Some <$> buffer ∧
        querylog.checkBuffer codec.decode buffer b = Ret None) ∧
  (∀ b, querylog.checkBuffer Decode buffer b = Ret None ↔
        length b = length buffer ∧ Decode <$> b = Some <$> buffer) ∧
  (∀ fault fs fs',
     querylog.flushToFile Encode Decode l buffer fault fs = Ret (None, fs') →
     ∃ b, querylog.encodeAll Encode buffer = Some b ∧
          querylog.checkBuffer Decode buffer b = Ret None ∧
          Decode <$> b = Some <$> buffer) ∧
  (∀ b fault fs,
     querylog.encodeAll Encode buffer = Some b →
     Decode <$> b ≠ Some <$> buffer →
     ∃ msg, querylog.flushToFile Encode Decode l buffer fault fs
              = Ret (Some msg, fs)).
Proof.
  split; [|by apply selfcheck_decides].
  intros Hvalid.
  destruct (encodeAll_valid codec.encode codec.decode buffer)
    as (b & Henc & Hmap).
  { eapply Forall_impl; [exact Hvalid|]. intros e He.
    by apply decode_encode. }
  exists b. split; [done|]. split; [by eapply encodeAll_length|].
  split; [done|]. by apply checkBuffer_pass_iff.
Qed.


Lemma flush_failure_leaves_buffer_empty_witness :
  ∃ l',
    querylog.flushLogBuffer sample.Encode sample.Decode 5000 true sample.log
      querylog.OpenFails ∅ = Ret (Some "open"%string, l', ∅) ∧
    querylog.logBuffer l' = [] ∧ querylog.flushPending l' = false.
Proof.
  eexists. split; [reflexivity|].
  destruct (flush_failure_leaves_buffer_empty sample.Encode sample.Decode
              5000 true sample.log querylog.OpenFails ∅) as (_ & _ & H).
  destruct (H "open"%string _ ∅ eq_refl) as (_ & _ & Hbuf & Hflag & _).
  split; [exact Hbuf | exact Hflag].
Defined.

(** C1, as the claim has it, fails: a full flush whose file write fails
    returns the error of the write, and the entry that was pending is
    neither in the pending buffer afterwards nor handed back. *)
Lemma flush_failure_drops_batch :
  querylog.logBuffer sample.log = [sample.adsEntry] ∧
  ∃ l' fs',
    querylog.flushLogBuffer sample.Encode sample.Decode 5000 true sample.log
      (querylog.WriteFails 0) ∅ = Ret (Some "write"%string, l', fs') ∧
    querylog.logBuffer l' = [] ∧
    sample.adsEntry ∉ querylog.logBuffer l'.
Proof.
  split; [reflexivity|]. eexists _, _. split; [reflexivity|].
  split; [reflexivity|]. cbn. apply not_elem_of_nil.
Qed.

Lemma selfcheck_roundtrip_witness :
  Forall codec.valid [sample.adsEntry; sample.brokenEntry] ∧
  ∃ b, querylog.encodeAll codec.encode [sample.adsEntry; sample.brokenEntry]
         = Some b ∧
       length b = 2%nat ∧
       codec.decode <$> b = [Some sample.adsEntry; Some sample.brokenEntry] ∧
       querylog.checkBuffer codec.decode
         [sample.adsEntry; sample.brokenEntry] b = Ret None.
Proof.
  assert (Forall codec.valid [sample.adsEntry; sample.brokenEntry]) as Hvalid.
  { repeat constructor; by vm_compute. }
  split; [exact Hvalid|].
  exact (proj1 (selfcheck_roundtrip codec.encode codec.decode sample.log
                  [sample.adsEntry; sample.brokenEntry]) Hvalid).
Defined.

(** ** Replay and backfill *)

Section Replay.

Import querylog.

Context {record : Type}.
Variable Decode : record → option entry.logEntry.
Variable Broken : record → option bool.
Variable Unpack : list byte → option dns.Msg.
Variable queryLogSize : Z.

Section Scan.

Context {St : Type}.
Variable onEntry : entry.logEntry → St → error * St.
Variable needMore : St → bool.
Variable timeWindow : time.Duration.
Variable now : time.Time.

Lemma scanRecords_no_more rs s :
  needMore s = false →
  scanRecords Decode Broken onEntry needMore timeWindow now rs s
    = Returns (None, s).
Proof.
  intros H. destruct rs as [|r rs]; cbn [scanRecords]; [done|].
  destruct (Decode r), (Broken r) as [[|]|]; by rewrite ?H.
Qed.

(** A well-formed record that does not decode is passed over. *)
Lemma scanRecords_undecodable r rs s :
  Decode r = None → Broken r = None →
  scanRecords Decode Broken onEntry needMore timeWindow now (r :: rs) s =
  scanRecords Decode Broken onEntry needMore timeWindow now rs s.
Proof.
  intros H Hb. cbn [scanRecords]. rewrite H, Hb.
  destruct (needMore s) eqn:Hm; cbn [negb]; [done|].
  by rewrite scanRecords_no_more.
Qed.

(** A record that is not well-formed JSON, where [d.More()] holds: the
    loop never gets past it. *)
Lemma scanRecords_stuck r rs s :
  needMore s = true →
  Decode r = None → Broken r = Some true →
  scanRecords Decode Broken onEntry needMore timeWindow now (r :: rs) s = Hangs.
Proof. intros Hm H Hb. cbn [scanRecords]. by rewrite H, Hb, Hm. Qed.

(** A record on whose entry [onEntry] returns [nil] without a change of
    state can be taken out of the file. *)
Lemma scanRecords_skip e r pre post : ∀ s,
  Decode r = Some e →
  (∀ s', onEntry e s' = (None, s')) →
  scanRecords Decode Broken onEntry needMore timeWindow now (pre ++ r :: post) s =
  scanRecords Decode Broken onEntry needMore timeWindow now (pre ++ post) s.
Proof.
  intros s Hdec Hskip. revert s.
  induction pre as [|r' pre IH]; intros s.
  - cbn [app scanRecords]. rewrite Hdec, Hskip.
    destruct (needMore s) eqn:Hm.
    + destruct (Broken r); cbn [negb]; by destruct (decide _).
    + rewrite scanRecords_no_more by done. by destruct (Broken r).
  - cbn [app scanRecords].
    destruct (Decode r') as [e'|], (Broken r') as [[|]|];
      destruct (negb (needMore s)); try done; try (by apply IH);
      (destruct (decide _); [by apply IH|]);
      by destruct (onEntry e' s) as [[err|] s']; [|apply IH].
Qed.

Lemma scanFiles_skip e r pre post file files fs : ∀ s,
  Decode r = Some e →
  (∀ s', onEntry e s' = (None, s')) →
  fs !! file = Some (pre ++ r :: post) →
  scanFiles Decode Broken onEntry needMore timeWindow now files fs s =
  scanFiles Decode Broken onEntry needMore timeWindow now files
    (<[file := pre ++ post]> fs) s.
Proof.
  intros s Hdec Hskip Hfile. revert s.
  induction files as [|f files IH]; intros s; cbn [scanFiles]; [done|].
  destruct (negb (needMore s)); [done|].
  destruct (decide (f = file)) as [->|Hne].
  - rewrite Hfile, lookup_insert_eq.
    rewrite (scanRecords_skip e r pre post s Hdec Hskip).
    destruct (scanRecords _ _ _ _ _ _ _ _) as [[[err|] s']|];
      [done | by apply IH | done].
  - rewrite lookup_insert_ne by done.
    destruct (fs !! f) as [rs|]; [|by apply IH].
    destruct (scanRecords _ _ _ _ _ _ _ _) as [[[err|] s']|];
      [done | by apply IH | done].
Qed.

(** An entry on which [onEntry] returns an error ends the scan: no record
    after it is read. *)
Lemma scanRecords_abort e r rs s msg s' :
  needMore s = true →
  Decode r = Some e →
  ¬ time.Sub now (entry.Time e) > timeWindow →
  onEntry e s = (Some msg, s') →
  scanRecords Decode Broken onEntry needMore timeWindow now (r :: rs) s
    = Returns (Some msg, s').
Proof.
  intros Hm Hdec Hwin Hon. cbn [scanRecords].
  rewrite Hdec, Hm, decide_False, Hon by done. by destruct (Broken r).
Qed.

End Scan.

Lemma onEntry_future now e cache :
  time.After (entry.Time e) now = true →
  fillFromFile_onEntry Unpack queryLogSize now e cache = (None, cache).
Proof.
  intros Hfut. unfold fillFromFile_onEntry.
  destruct (decide _); [done|]. by rewrite Hfut.
Qed.

Section Backfill.

Variable hoursOf : time.Duration → Z.
Context {stats : Type}.
Variable incrementCounters : stats → entry.logEntry → stats.

Lemma fillStatsLoop_future now validFrom e pre post : ∀ top s,
  time.After (entry.Time e) now = true →
  fillStatsLoop hoursOf Unpack incrementCounters now validFrom
    (pre ++ e :: post) top s =
  fillStatsLoop hoursOf Unpack incrementCounters now validFrom
    (pre ++ post) top s.
Proof.
  intros top s Hfut. revert top s.
  induction pre as [|e' pre IH]; intros top s; cbn [app fillStatsLoop].
  - rewrite Hfut. by repeat destruct (decide _).
  - repeat (destruct (decide _); [by apply IH|]).
    destruct (time.After (entry.Time e') now); [by apply IH|].
    destruct (Unpack _) as [q|]; [|by apply IH].
    destruct (decide _); [by apply IH|].
    destruct (addEntry _ _ _ _ _) as [[[err|] top']|]; cbn [mbind res_bind];
      [by apply IH | by apply IH | done].
Qed.

(** C10.  An entry whose time is after the clock reading of the replay or
    of the backfill is skipped, whatever its age against the time window:
    the closure of [fillFromFile] returns [nil] and leaves the cache as it
    is, so the replay gives the same result as on the file without the
    record of the entry; and [fillStatsFromQueryLog] gives the same result,
    in buckets and in counters, as on the log without the entry. *)
Theorem future_entry_skipped (e : entry.logEntry) (now : time.Time) :
  time.After (entry.Time e) now = true →
  (∀ cache, fillFromFile_onEntry Unpack queryLogSize now e cache = (None, cache)) ∧
  (∀ r file pre post nowLoader fs l,
     Decode r = Some e →
     fs !! file = Some (pre ++ r :: post) →
     fillFromFile Decode Broken Unpack queryLogSize now nowLoader fs l =
     fillFromFile Decode Broken Unpack queryLogSize now nowLoader
       (<[file := pre ++ post]> fs) l) ∧
  (∀ pre post l s,
     fillStatsFromQueryLog hoursOf Unpack incrementCounters now
       (Some (pre ++ e :: post)) l s =
     fillStatsFromQueryLog hoursOf Unpack incrementCounters now
       (Some (pre ++ post)) l s).
Proof.
  intros Hfut. split; [|split].
  - intros cache. by apply onEntry_future.
  - intros r file pre post nowLoader fs l Hdec Hfile.
    unfold fillFromFile, genericLoader.
    rewrite (scanFiles_skip _ _ _ _ e r pre post file _ fs _ Hdec); [done| |done].
    intros cache. by apply onEntry_future.
  - intros pre post l s. unfold fillStatsFromQueryLog.
    by rewrite fillStatsLoop_future.
Qed.

End Backfill.

End Replay.

Lemma future_entry_skipped_witness :
  let now := sample.adsEntry.(entry.Time) - time.Second in
  let l := {| timeLimit := 24; runningTop := {| limit := 24; hours := freshHours 500 24 |} |} in
  querylog.fillFromFile_onEntry sample.Unpack 5000 now sample.adsEntry [] = (None, []) ∧
  fillStatsFromQueryLog sample.hoursOf sample.Unpack (λ (n : nat) _, S n) now
    (Some [sample.adsEntry]) l 0%nat =
  fillStatsFromQueryLog sample.hoursOf sample.Unpack (λ (n : nat) _, S n) now
    (Some []) l 0%nat.
Proof.
  intros now l.
  destruct (future_entry_skipped (record := sample.record) sample.Decode
              sample.Broken sample.Unpack 5000 sample.hoursOf (λ (n : nat) _, S n)
              sample.adsEntry now) as (Hreplay & _ & Hfill).
  - reflexivity.
  - split; [apply Hreplay | apply (Hfill [] [] l 0%nat)].
Defined.

(** C3.  A log file of two records, the first of an entry whose question
    payload cannot be unpacked, the second well formed.  The backfill of
    the statistics skips the first and counts the second.  The replay into
    the cache stops at the first, whose error the closure of [fillFromFile]
    returns: the second entry does not reach the cache, where the file of
    the second record alone puts it. *)
Theorem replay_stops_at_unpack_failure :
  let now := 2000 * time.Second in
  let file := [Some sample.brokenEntry; Some sample.adsEntry] in
  let l := {| timeLimit := 24; runningTop := {| limit := 1; hours := freshHours 500 1 |} |} in
  sample.Unpack (entry.Question sample.brokenEntry) = None ∧
  (∃ l1,
     querylog.fillFromFile sample.Decode sample.Broken sample.Unpack 5000
       now now {["querylog.json"%string := file]} sample.log
     = querylog.Returns l1 ∧
     querylog.queryLogCache l1 = []) ∧
  (∃ l2,
     querylog.fillFromFile sample.Decode sample.Broken sample.Unpack 5000
       now now {["querylog.json"%string := [Some sample.adsEntry]]} sample.log
     = querylog.Returns l2 ∧
     querylog.queryLogCache l2 = [sample.adsEntry]) ∧
  ∃ l', fillStatsFromQueryLog sample.hoursOf sample.Unpack (λ (n : nat) _, S n) now
          (Some [sample.brokenEntry; sample.adsEntry]) l 0%nat
        = Ret (None, l', 1%nat) ∧
        (default 0 (Domains (getStatsTop 1 (runningTop l')).1 !! "ads.example"%string) = 1).
Proof.
  intros now file l. split; [reflexivity|].
  split; [eexists; split; [by vm_compute | reflexivity]|].
  split; [eexists; split; [by vm_compute | reflexivity]|].
  eexists. split; [by vm_compute | by vm_compute].
Qed.

(** ** The configuration handler *)

(** C9.  A request whose interval is not one of the supported ones is
    answered with a bad request (400), and the configuration is left as it
    was: neither the enabled flag nor the interval changes, and the query
    log receives no [Configure] call. *)
Theorem unsupported_interval_is_rejected (checkStatsInterval : Z → bool)
    (decodeBody : list byte → option home.qlogConfig) (body : list byte)
    (reqData : home.qlogConfig) (config : home.configuration) :
  decodeBody body = Some reqData →
  checkStatsInterval (home.Interval reqData) = false →
  home.handleQueryLogConfig checkStatsInterval decodeBody body config =
    (home.httpError home.StatusBadRequest "Unsupported interval", config).
Proof.
  intros Hbody Hcheck. unfold home.handleQueryLogConfig.
  by rewrite Hbody, Hcheck.
Qed.

Lemma unsupported_interval_is_rejected_witness :
  let config := {| home.QueryLogEnabled := false; home.QueryLogInterval := 1;
                   home.configureCalls := [] |} in
  home.handleQueryLogConfig sample.checkStatsInterval sample.decodeBody
    [x01; x02] config =
    (home.httpError 400 "Unsupported interval", config).
Proof.
  intros config.
  apply (unsupported_interval_is_rejected sample.checkStatsInterval
           sample.decodeBody [x01; x02]
           {| home.Enabled := true; home.Interval := 2 |} config);
    reflexivity.
Defined.

(** * Further properties *)

(** ** The counters keep their shape *)

Section CacheShape.

Lemma elem_of_Keys_find key l :
  key ∈ l.*1 ↔ find key l ≠ None.
Proof.
  induction l as [|[k v] l IH]; simpl.
  - split; [by intros ?%elem_of_nil | done].
  - rewrite elem_of_cons. destruct (decide (k = key)) as [->|Hne].
    + split; [done | by left].
    + rewrite IH. split; [intros [?|?]; [congruence | done] | by right].
Qed.

Lemma elem_of_Keys_remove key k l :
  k ∈ (remove key l).*1 → k ≠ key ∧ k ∈ l.*1.
Proof.
  induction l as [|[k' v] l IH]; simpl; [by intros ?%elem_of_nil|].
  destruct (decide (k' = key)) as [->|Hne]; simpl.
  - intros [? ?]%IH. split; [done | by right].
  - rewrite !elem_of_cons. intros [->|[? ?]%IH]; [by split; [|left] | by split; [|right]].
Qed.

Lemma NoDup_Keys_remove key l : NoDup l.*1 → NoDup (remove key l).*1.
Proof.
  induction l as [|[k v] l IH]; simpl; [done|].
  rewrite NoDup_cons. intros [Hk Hl].
  destruct (decide (k = key)); [by apply IH|]. simpl.
  apply NoDup_cons. split; [|by apply IH].
  by intros [_ ?]%elem_of_Keys_remove.
Qed.

Lemma length_remove_le key l : (length (remove key l) ≤ length l)%nat.
Proof.
  induction l as [|[k v] l IH]; simpl; [done|].
  destruct (decide (k = key)); simpl; lia.
Qed.

Lemma length_remove_lt key l :
  find key l ≠ None → (length (remove key l) < length l)%nat.
Proof.
  induction l as [|[k v] l IH]; simpl; [done|].
  destruct (decide (k = key)); simpl.
  - intros _. pose proof (length_remove_le key l). lia.
  - intros H. apply IH in H. lia.
Qed.

Lemma NoDup_Keys_removelast (l : list (string * ivalue)) :
  NoDup l.*1 → NoDup (removelast l).*1.
Proof.
  intros H. destruct (decide (l = [])) as [->|Hne]; [done|].
  destruct (exists_last Hne) as (l' & x & ->).
  rewrite removelast_last. rewrite fmap_app in H. by apply NoDup_app in H as [? _].
Qed.

Lemma elem_of_Keys_removelast k (l : list (string * ivalue)) :
  k ∈ (removelast l).*1 → k ∈ l.*1.
Proof.
  destruct (decide (l = [])) as [->|Hne]; [done|].
  destruct (exists_last Hne) as (l' & x & ->).
  rewrite removelast_last, fmap_app, elem_of_app. by left.
Qed.

Lemma length_removelast (l : list (string * ivalue)) :
  length (removelast l) = (length l - 1)%nat.
Proof.
  destruct (decide (l = [])) as [->|Hne]; [done|].
  destruct (exists_last Hne) as (l' & x & ->).
  rewrite removelast_last, length_app. simpl. lia.
Qed.

Lemma intValued_Forall c :
  Forall (λ kv : string * ivalue, ∃ n, kv.2 = VInt n) (items c) → intValued c.
Proof.
  unfold intValued. induction (items c) as [|[k v] l IH]; intros H key s;
    simpl; [done|].
  apply Forall_cons in H as [[n Hn] H]. simpl in Hn. subst v.
  destruct (decide (k = key)); [done | by apply IH].
Qed.

Lemma Get_wfCache key c : wfCache c → wfCache (Get key c).2.
Proof.
  intros (Hnd & Hint & Hlen). unfold Get.
  destruct (find key (items c)) as [v|] eqn:Hf; [|done].
  unfold wfCache, Keys in *. split; [|split]; cbn [snd items size].
  - rewrite fmap_cons. apply NoDup_cons. split; [|by apply NoDup_Keys_remove].
    by intros [? _]%elem_of_Keys_remove.
  - intros k s. pose proof (Get_find key k c) as H. unfold Get in H.
    rewrite Hf in H. cbn [snd items] in H. cbn [items]. rewrite H. apply Hint.
  - assert (find key (items c) ≠ None) as Hin by congruence.
    apply length_remove_lt in Hin. cbn [length]. lia.
Qed.

Lemma Set_wfCache key n c :
  0 < size c → wfCache c → wfCache (Set_ key (VInt n) c).
Proof.
  intros Hsz (Hnd & Hint & Hlen). unfold Set_, wfCache, Keys in *.
  destruct (find key (items c)) as [v|] eqn:Hf; cbn [items size].
  - split; [|split].
    + rewrite fmap_cons. apply NoDup_cons. split; [|by apply NoDup_Keys_remove].
      by intros [? _]%elem_of_Keys_remove.
    + intros k s. simpl. destruct (decide (key = k)) as [->|Hne]; [done|].
      rewrite find_remove_ne by done. apply Hint.
    + assert (find key (items c) ≠ None) as Hin by congruence.
      apply length_remove_lt in Hin. cbn [length]. lia.
  - assert (key ∉ (items c).*1) as Hnotin.
    { rewrite elem_of_Keys_find. by intros []. }
    destruct (decide (size c <= _)) as [Hfull|Hroom].
    + split; [|split].
      * rewrite fmap_cons. apply NoDup_cons.
        split; [|by apply NoDup_Keys_removelast].
        by intros ?%elem_of_Keys_removelast.
      * intros k s. simpl. destruct (decide (key = k)) as [->|Hne]; [done|].
        intros H%find_removelast. by apply Hint in H.
      * cbn [length]. rewrite length_removelast. lia.
    + split; [|split].
      * rewrite fmap_cons. by apply NoDup_cons.
      * intros k s. simpl. destruct (decide (key = k)) as [->|Hne]; [done|].
        apply Hint.
      * cbn [length]. lia.
Qed.

Lemma Set_size key v c : size (Set_ key v c) = size c.
Proof. unfold Set_. by destruct (find key (items c)). Qed.

(** One increment keeps the shape of a counter. *)
Lemma incrementValue_wfCache (key : string) (c : Cache) :
  0 < size c → wfCache c →
  (incrementValue key c).1 = None ∧
  wfCache (incrementValue key c).2 ∧
  size (incrementValue key c).2 = size c.
Proof.
  intros Hsz Hwf.
  pose proof (Get_wfCache key c Hwf) as Hwf1.
  pose proof (Get_size key c) as Hsz1.
  pose proof (Get_value key c) as Hv.
  unfold incrementValue. destruct (Get key c) as [o c1].
  cbn [fst snd] in *. subst o.
  destruct (find key (items c)) as [[n|s]|] eqn:Hf; cbn [fst snd].
  - rewrite Set_size. split; [done|]. split; [|done].
    apply Set_wfCache; [lia | done].
  - destruct Hwf as (_ & Hint & _). by destruct (Hint key s).
  - rewrite Set_size. split; [done|]. split; [|done].
    apply Set_wfCache; [lia | done].
Qed.

End CacheShape.

(** ** The ring under growth, rotation and recording *)

Section RingShape.

Variable queryLogTopSize : Z.
Variable hoursOf : time.Duration → Z.

Lemma New_wfCache n : 0 <= n → wfCache (New n).
Proof.
  intros Hn. split; [apply NoDup_nil_2|]. split; [apply New_intValued|].
  simpl. lia.
Qed.

Lemma hourTop_init_wfHour :
  0 <= queryLogTopSize → wfHour queryLogTopSize (hourTop_init queryLogTopSize).
Proof. intros H. repeat split; try apply New_wfCache; done. Qed.

Lemma freshHours_wfHour n :
  0 <= queryLogTopSize → Forall (wfHour queryLogTopSize) (freshHours queryLogTopSize n).
Proof.
  intros H. unfold freshHours. apply Forall_replicate.
  by apply hourTop_init_wfHour.
Qed.

(** Growing, as an equation. *)
Lemma dayTop_init_grow_eq (n : Z) (d : dayTop) :
  Z.of_nat (length (hours d)) = limit d → limit d <= n →
  dayTop_init queryLogTopSize n d =
    Ret {| limit := n;
           hours := hours d ++ freshHours queryLogTopSize (n - limit d) |}.
Proof.
  intros Hlen Hle. unfold dayTop_init.
  destruct (decide (length (hours d) = 0%nat)) as [H0|H0].
  - destruct (hours d); [|done]. simpl in Hlen. rewrite <- Hlen, Z.sub_0_r. done.
  - destruct (decide (n > limit d)).
    + unfold slice_to.
      rewrite decide_True by (rewrite freshHours_length; lia).
      cbn [mbind res_bind]. do 3 f_equal. unfold freshHours.
      rewrite take_replicate. f_equal. lia.
    + rewrite decide_False by lia. cbn [mbind res_bind].
      replace (n - limit d) with 0 by lia. by rewrite app_nil_r.
Qed.

(** X3.  On a ring of at least one bucket, as long as its limit, the
    rotation returns a ring of the same length whose newest bucket is
    empty; every bucket is one hour older than it was, and the oldest one
    is gone. *)
Theorem rotateHourlyTop_shifts (d : dayTop) :
  Z.of_nat (length (hours d)) = limit d → 0 < limit d →
  ∃ d', rotateHourlyTop queryLogTopSize d = Ret d' ∧
    limit d' = limit d ∧
    length (hours d') = length (hours d) ∧
    hours d' !! 0%nat = Some (hourTop_init queryLogTopSize) ∧
    ∀ i, (S i < length (hours d))%nat → hours d' !! S i = hours d !! i.
Proof.
  intros Hlen Hpos. unfold rotateHourlyTop, slice_to.
  rewrite decide_True by (simpl; lia). cbn [mbind res_bind].
  eexists. split; [done|]. cbn [limit hours]. split; [done|].
  rewrite <- Hlen, Nat2Z.id.
  destruct (hours d) as [|h hs] eqn:Hhs; [simpl in *; lia|].
  split; [|split].
  - rewrite length_take. simpl. lia.
  - done.
  - intros i Hi. rewrite lookup_take_lt by done. done.
Qed.

Lemma take_app_take {A} (n : nat) (a b : list A) :
  take n (a ++ take n b) = take n (a ++ b).
Proof.
  destruct (decide (n ≤ length a)%nat) as [Hle|Hgt].
  - by rewrite !take_app_le.
  - rewrite !take_app_ge by lia. f_equal. rewrite take_take. f_equal. lia.
Qed.

Lemma rotate_many (k : nat) : ∀ d,
  Z.of_nat (length (hours d)) = limit d →
  runOps queryLogTopSize hoursOf (replicate k OpRotate) d =
    Ret {| limit := limit d;
           hours := take (length (hours d))
                      (replicate k (hourTop_init queryLogTopSize) ++ hours d) |}.
Proof.
  induction k as [|k IH]; intros d Hlen.
  - simpl. rewrite firstn_all. by destruct d.
  - cbn [replicate runOps runOp]. unfold rotateHourlyTop, slice_to.
    rewrite decide_True by (simpl; lia). cbn [mbind res_bind].
    rewrite <- Hlen, Nat2Z.id. rewrite IH; cbn [limit hours].
    + rewrite length_take. cbn [length].
      replace (length (hours d) `min` S (length (hours d)))%nat
        with (length (hours d)) by lia.
      rewrite take_app_take. do 3 f_equal.
      by rewrite replicate_cons_app, <- app_assoc.
    + rewrite length_take. simpl. lia.
Qed.

(** X4.  After as many hourly rotations as the ring has buckets, or more,
    every bucket is an empty one: nothing counted before is left. *)
Theorem rotations_empty_the_ring (k : nat) (d : dayTop) :
  Z.of_nat (length (hours d)) = limit d → limit d <= Z.of_nat k →
  runOps queryLogTopSize hoursOf (replicate k OpRotate) d =
    Ret {| limit := limit d; hours := freshHours queryLogTopSize (limit d) |}.
Proof.
  intros Hlen Hk. rewrite rotate_many by done. do 2 f_equal.
  rewrite take_app_le by (rewrite length_replicate; lia).
  rewrite take_replicate. unfold freshHours. f_equal. lia.
Qed.

Lemma addEntry_no_name e q now d :
  queryName q = None → addEntry hoursOf e q now d = Ret (None, d).
Proof.
  unfold queryName, addEntry. destruct (decide _); [done|].
  destruct (dns.Question q); [done|]. by destruct (decide _).
Qed.

Lemma counted_wfHour e name h :
  0 < queryLogTopSize →
  wfHour queryLogTopSize h → wfHour queryLogTopSize (counted e name h).
Proof.
  intros Hcap ((Hd & Hsd) & (Hb & Hsb) & (Hc & Hsc)).
  unfold counted, wfHour. cbn [domains blocked clients].
  split; [|split].
  - destruct (incrementValue_wfCache name (domains h)) as (_ & ? & ->);
      [lia | done | done].
  - destruct (entry.IsFiltered _); [|done].
    destruct (incrementValue_wfCache name (blocked h)) as (_ & ? & ->);
      [lia | done | done].
  - destruct (decide _); [done|].
    destruct (incrementValue_wfCache (entry.IP e) (clients h))
      as (_ & ? & ->); [lia | done | done].
Qed.

Lemma addEntry_wfTop (e : entry.logEntry) (q : dns.Msg)
    (now : time.Time) (d : dayTop) :
  0 < queryLogTopSize →
  wfTop queryLogTopSize d →
  0 <= hoursOf (time.Sub now (entry.Time e)) →
  ∃ d', addEntry hoursOf e q now d = Ret (None, d') ∧
        limit d' = limit d ∧ wfTop queryLogTopSize d'.
Proof.
  intros Hcap [Hlen Hall] Hhour.
  destruct (queryName q) as [name|] eqn:Hq;
    [|exists d; by rewrite addEntry_no_name].
  destruct (decide (hoursOf (time.Sub now (entry.Time e)) >= limit d))
    as [Hold|Hin].
  { exists d. unfold addEntry. by rewrite decide_True. }
  destruct (hours d !! Z.to_nat (hoursOf (time.Sub now (entry.Time e))))
    as [h|] eqn:Hh; [|apply lookup_ge_None in Hh; lia].
  pose proof (Forall_lookup_1 _ _ _ _ Hall Hh) as Hwf.
  eexists. split.
  - apply addEntry_counted with (h := h) (name := name); try done; [lia|..];
      apply Hwf.
  - unfold setHour. cbn [limit hours]. split; [done|].
    split; cbn [limit hours].
    + by rewrite length_insert.
    + apply Forall_insert; [done|]. by apply counted_wfHour.
Qed.

Lemma runOp_keeps_ring op d :
  0 < queryLogTopSize →
  wfTop queryLogTopSize d →
  admissible hoursOf (limit d) [op] →
  ∃ d', runOp queryLogTopSize hoursOf op d = Ret d' ∧
        wfTop queryLogTopSize d' ∧
        limit d' = match op with OpInit n => n | _ => limit d end.
Proof.
  intros Hcap [Hlen Hall] Hadm. destruct op as [n| |e q now]; cbn [runOp].
  - destruct Hadm as [Hle _]. rewrite dayTop_init_grow_eq by done.
    eexists. split; [done|]. split; [|done]. split; cbn [limit hours].
    + rewrite length_app, Nat2Z.inj_add, freshHours_length; lia.
    + apply Forall_app. split; [done|]. apply freshHours_wfHour. lia.
  - unfold rotateHourlyTop, slice_to. rewrite decide_True by (simpl; lia).
    cbn [mbind res_bind]. eexists. split; [done|]. split; [|done].
    split; cbn [limit hours].
    + rewrite length_take. simpl. lia.
    + apply Forall_take. apply Forall_cons. split; [|done].
      apply hourTop_init_wfHour. lia.
  - destruct Hadm as [Hhour _].
    destruct (addEntry_wfTop e q now d) as (d' & -> & Hlim & Hwf);
      [done | done | done |].
    exists d'. by cbn [mbind res_bind snd].
Qed.

(** X2.  [init] with a limit that is not below the present one returns a
    ring of the new limit and length: every bucket stays at its index,
    and the indices from the old length on hold empty buckets; the shape of
    the ring is kept. *)
Theorem dayTop_init_grow_keeps_buckets (n : Z) (d : dayTop) :
  0 < queryLogTopSize →
  wfTop queryLogTopSize d → limit d <= n →
  ∃ d', dayTop_init queryLogTopSize n d = Ret d' ∧
    limit d' = n ∧ wfTop queryLogTopSize d' ∧
    (∀ i, (i < length (hours d))%nat → hours d' !! i = hours d !! i) ∧
    (∀ i, (length (hours d) ≤ i)%nat → Z.of_nat i < n →
          hours d' !! i = Some (hourTop_init queryLogTopSize)).
Proof.
  intros Hcap Hwf Hle.
  destruct (runOp_keeps_ring (OpInit n) d) as (d' & Hrun & Hwf' & Hlim);
    [done | done | by split |].
  exists d'. split; [done|]. split; [done|]. split; [done|].
  destruct Hwf as [Hlen _]. cbn [runOp] in Hrun.
  rewrite dayTop_init_grow_eq in Hrun by done. injection Hrun as <-.
  cbn [hours]. split.
  - intros i Hi. by rewrite lookup_app_l.
  - intros i Hi Hn. rewrite lookup_app_r by done. unfold freshHours.
    apply lookup_replicate_2. lia.
Qed.

(** X5.  On a ring as long as its limit, with well-shaped counters, a run
    of entries none of which is stamped an hour or more after its clock
    reading is recorded without panic and without error, and the ring keeps
    its limit, its length and the shape of its counters. *)
Theorem addEntries_keep_ring
    (es : list (entry.logEntry * dns.Msg * time.Time)) (d : dayTop) :
  0 < queryLogTopSize →
  wfTop queryLogTopSize d →
  Forall (λ x : entry.logEntry * dns.Msg * time.Time,
            0 <= hoursOf (time.Sub x.2 (entry.Time x.1.1))) es →
  ∃ d', addEntries hoursOf es d = Ret (None, d') ∧
        limit d' = limit d ∧ wfTop queryLogTopSize d'.
Proof.
  intros Hcap Hwf Hall. revert d Hwf.
  induction Hall as [|[[e q] now] es Hhour _ IH]; intros d Hwf.
  - by exists d.
  - destruct (addEntry_wfTop e q now d) as (d1 & Hrun & Hlim & Hwf1);
      [done | done | done |].
    destruct (IH d1 Hwf1) as (d' & Hrest & Hlim' & Hwf').
    exists d'. cbn [addEntries]. rewrite Hrun. cbn [mbind res_bind].
    split; [done|]. split; [congruence | done].
Qed.

(** X6.  From a ring as long as its limit, with well-shaped counters,
    every sequence of [init] calls that do not lower the limit, hourly
    rotations and recordings of entries not stamped an hour or more ahead
    runs without panic and ends in a ring as long as its limit, with
    well-shaped counters. *)
Theorem ring_shape_is_invariant (ops : list ringOp) (d : dayTop) :
  0 < queryLogTopSize →
  wfTop queryLogTopSize d →
  admissible hoursOf (limit d) ops →
  ∃ d', runOps queryLogTopSize hoursOf ops d = Ret d' ∧
        wfTop queryLogTopSize d'.
Proof.
  intros Hcap. revert d. induction ops as [|op ops IH]; intros d Hwf Hadm.
  - by exists d.
  - assert (admissible hoursOf (limit d) [op] ∧
            admissible hoursOf
              (match op with OpInit n => n | _ => limit d end) ops)
      as [Hop Hops].
    { destruct op; cbn [admissible] in *; tauto. }
    destruct (runOp_keeps_ring op d) as (d1 & Hrun & Hwf1 & Hlim);
      [done | done | done |].
    rewrite <- Hlim in Hops.
    destruct (IH d1 Hwf1 Hops) as (d' & Hrest & Hwf').
    exists d'. cbn [runOps]. rewrite Hrun. by cbn [mbind res_bind].
Qed.

(** X7.  An entry stamped an hour or more after the clock reading, with a
    query name, makes [addEntry] index the ring below zero: the call does
    not return. *)
Theorem addEntry_ahead_of_clock_panics (e : entry.logEntry) (q : dns.Msg)
    (name : string) (now : time.Time) (d : dayTop) :
  hoursOf (time.Sub now (entry.Time e)) < 0 →
  0 <= limit d →
  queryName q = Some name →
  addEntry hoursOf e q now d = Panic.
Proof.
  intros Hneg Hlim Hq.
  apply queryName_Some in Hq as (q0 & qs & Hqs & Hname & Hne).
  unfold addEntry. rewrite decide_False by lia.
  rewrite Hqs, Hname, decide_False by done.
  unfold index. by rewrite decide_False by lia.
Qed.

End RingShape.

Lemma wfTop_fresh cap n :
  0 <= cap → 0 <= n → wfTop cap {| limit := n; hours := freshHours cap n |}.
Proof.
  intros Hcap Hn. split; [by apply freshHours_length|].
  by apply freshHours_wfHour.
Qed.

Lemma dayTop_init_grow_keeps_buckets_witness :
  ∃ d', dayTop_init 500 3 {| limit := 2; hours := freshHours 500 2 |} = Ret d' ∧
    limit d' = 3 ∧ length (hours d') = 3%nat.
Proof.
  destruct (dayTop_init_grow_keeps_buckets 500 sample.hoursOf 3
              {| limit := 2; hours := freshHours 500 2 |})
    as (d' & Hrun & Hlim & [Hlen _] & _);
    [reflexivity | by apply wfTop_fresh | by vm_compute |].
  exists d'. split; [exact Hrun|]. split; [exact Hlim|].
  rewrite Hlim in Hlen. lia.
Defined.

Lemma rotateHourlyTop_shifts_witness :
  ∃ d', rotateHourlyTop 500 {| limit := 2; hours := freshHours 500 2 |} = Ret d' ∧
        limit d' = 2 ∧ length (hours d') = 2%nat.
Proof.
  destruct (rotateHourlyTop_shifts 500
              {| limit := 2; hours := freshHours 500 2 |})
    as (d' & Hrun & Hlim & Hlen & _); [reflexivity | reflexivity |].
  exists d'. split; [exact Hrun|]. split; [exact Hlim | exact Hlen].
Defined.

Lemma rotations_empty_the_ring_witness :
  ∃ d, addEntries sample.hoursOf
         [(sample.adsEntry, dns.mkMsg [dns.mkQuestion "ads.example." 1 1],
           entry.Time sample.adsEntry)]
         {| limit := 2; hours := freshHours 500 2 |} = Ret (None, d) ∧
       limit d = 2 ∧
       runOps 500 sample.hoursOf [OpRotate; OpRotate] d =
         Ret {| limit := 2; hours := freshHours 500 2 |}.
Proof.
  eexists. split; [reflexivity|]. split; [reflexivity|].
  apply (rotations_empty_the_ring 500 sample.hoursOf 2);
    [reflexivity | by vm_compute].
Defined.

Lemma addEntries_keep_ring_witness :
  ∃ d', addEntries sample.hoursOf
          [(sample.adsEntry, dns.mkMsg [dns.mkQuestion "ads.example." 1 1],
            entry.Time sample.adsEntry + time.Hour)]
          {| limit := 2; hours := freshHours 500 2 |} = Ret (None, d') ∧
        limit d' = 2 ∧ wfTop 500 d'.
Proof.
  apply (addEntries_keep_ring 500 sample.hoursOf);
    [reflexivity | by apply wfTop_fresh |].
  repeat constructor. by vm_compute.
Defined.

Lemma ring_shape_is_invariant_witness :
  ∃ d', runOps 500 sample.hoursOf
          [OpInit 2; OpRotate;
           OpAdd sample.adsEntry (dns.mkMsg [dns.mkQuestion "ads.example." 1 1])
             (entry.Time sample.adsEntry);
           OpInit 4; OpRotate] dayTop_zero = Ret d' ∧
        wfTop 500 d'.
Proof.
  apply (ring_shape_is_invariant 500 sample.hoursOf).
  - reflexivity.
  - split; [reflexivity | constructor].
  - cbn. repeat split; by vm_compute.
Defined.

Lemma addEntry_ahead_of_clock_panics_witness :
  addEntry sample.hoursOf sample.adsEntry
    (dns.mkMsg [dns.mkQuestion "ads.example." 1 1])
    (entry.Time sample.adsEntry - 2 * time.Hour)
    {| limit := 2; hours := freshHours 500 2 |} = Panic.
Proof.
  apply (addEntry_ahead_of_clock_panics sample.hoursOf _ _ "ads.example"%string);
    [by vm_compute | by vm_compute | reflexivity].
Defined.

(** ** Reading the statistics *)

Section Stats.

Lemma lockedGetValue_int key c :
  intValued c →
  lockedGetValue key c = ((count key c, None), (Get key c).2).
Proof.
  intros Hint. rewrite count_find. unfold lockedGetValue.
  pose proof (Get_value key c) as Hv.
  destruct (Get key c) as [o c1]. cbn [fst snd] in *. subst o.
  destruct (find key (items c)) as [[n|s]|] eqn:Hf; [done| |done].
  by destruct (Hint key s).
Qed.

(** The closure [do] over a counter: the sums of the keys it visits grow by
    their counts, the other sums are left, and the counter keeps its
    values and its shape. *)
Lemma do_spec keys : ∀ c result,
  NoDup keys → wfCache c →
  (∀ key, (do_ keys c result).1 !! key =
          if decide (key ∈ keys)
          then Some (wrap_int (default 0 (result !! key) + count key c))
          else result !! key) ∧
  (∀ key, find key (items (do_ keys c result).2) = find key (items c)) ∧
  wfCache (do_ keys c result).2 ∧
  size (do_ keys c result).2 = size c.
Proof.
  induction keys as [|k keys IH]; intros c result Hnd Hwf.
  - cbn [do_ fst snd]. split; [|done]. intros key.
    rewrite decide_False; [done | apply not_elem_of_nil].
  - apply NoDup_cons in Hnd as [Hk Hnd]. cbn [do_].
    rewrite lockedGetValue_int by apply Hwf.
    destruct (IH (Get k c).2
                 (<[k := wrap_int (default 0 (result !! k) + count k c)]> result)
                 Hnd (Get_wfCache k c Hwf)) as (Hres & Hfind & Hwf' & Hsz).
    split; [|split; [|split]].
    + intros key. rewrite Hres. destruct (decide (key = k)) as [->|Hne].
      * rewrite decide_False by done. rewrite lookup_insert_eq.
        rewrite decide_True; [done | by left].
      * rewrite lookup_insert_ne by done.
        assert (count key (Get k c).2 = count key c) as ->.
        { by rewrite !count_find, Get_find. }
        destruct (decide (key ∈ keys)).
        -- rewrite decide_True; [done | by right].
        -- rewrite decide_False; [done|]. by intros [?|?]%elem_of_cons.
    + intros key. by rewrite Hfind, Get_find.
    + done.
    + by rewrite Hsz, Get_size.
Qed.

(** One counter's share of one hour in the sums. *)
Lemma do_Keys c result :
  wfCache c →
  (∀ key, (do_ (Keys c) c result).1 !! key =
          match find key (items c) with
          | Some (VInt n) => Some (wrap_int (default 0 (result !! key) + n))
          | _ => result !! key
          end) ∧
  (∀ key, find key (items (do_ (Keys c) c result).2) = find key (items c)) ∧
  wfCache (do_ (Keys c) c result).2 ∧
  size (do_ (Keys c) c result).2 = size c.
Proof.
  intros Hwf. destruct (do_spec (Keys c) c result) as (Hres & Hrest);
    [apply Hwf | done |].
  split; [|done]. intros key. rewrite Hres, count_find. unfold Keys.
  destruct (find key (items c)) as [[n|s]|] eqn:Hf.
  - rewrite decide_True; [done|]. apply elem_of_Keys_find. congruence.
  - destruct Hwf as (_ & Hint & _). by destruct (Hint key s).
  - rewrite decide_False; [done|]. rewrite elem_of_Keys_find. by intros [].
Qed.

Lemma statsOfHour_fields h s :
  statsOfHour h s =
  ({| Domains := (do_ (Keys (domains h)) (domains h) (Domains s)).1;
      Blocked := (do_ (Keys (blocked h)) (blocked h) (Blocked s)).1;
      Clients := (do_ (Keys (clients h)) (clients h) (Clients s)).1 |},
   {| domains := (do_ (Keys (domains h)) (domains h) (Domains s)).2;
      blocked := (do_ (Keys (blocked h)) (blocked h) (Blocked s)).2;
      clients := (do_ (Keys (clients h)) (clients h) (Clients s)).2 |}).
Proof.
  unfold statsOfHour.
  destruct (do_ (Keys (domains h)) _ _), (do_ (Keys (blocked h)) _ _),
    (do_ (Keys (clients h)) _ _). done.
Qed.

Lemma statsLoop_spec cap (n : nat) : ∀ hs s,
  Forall (wfHour cap) hs →
  (∀ key,
     Domains (statsLoop n hs s).1 !! key =
       foldl (mergeStep domains key) (Domains s !! key) (take n hs) ∧
     Blocked (statsLoop n hs s).1 !! key =
       foldl (mergeStep blocked key) (Blocked s !! key) (take n hs) ∧
     Clients (statsLoop n hs s).1 !! key =
       foldl (mergeStep clients key) (Clients s !! key) (take n hs)) ∧
  Forall2 sameCounts hs (statsLoop n hs s).2 ∧
  Forall (wfHour cap) (statsLoop n hs s).2.
Proof.
  induction n as [|n IH]; intros hs s Hall.
  - cbn [statsLoop fst snd]. rewrite take_0. split; [done|].
    split; [|done]. apply Forall2_same_length_lookup. split; [done|].
    by intros i h h' -> [= <-] key.
  - destruct hs as [|h hs]; cbn [statsLoop].
    { cbn [fst snd]. split; [done|]. split; [constructor | done]. }
    apply Forall_cons in Hall as [((Hd & Hsd) & (Hb & Hsb) & (Hc & Hsc)) Hall].
    rewrite statsOfHour_fields.
    destruct (do_Keys (domains h) (Domains s) Hd) as (Hrd & Hfd & Hwd & Hzd).
    destruct (do_Keys (blocked h) (Blocked s) Hb) as (Hrb & Hfb & Hwb & Hzb).
    destruct (do_Keys (clients h) (Clients s) Hc) as (Hrc & Hfc & Hwc & Hzc).
    match goal with |- context [statsLoop n hs ?s1] =>
      destruct (IH hs s1 Hall) as (Hres & Hsame & Hwf);
      destruct (statsLoop n hs s1) as [s2 hs2] end.
    cbn [fst snd Domains Blocked Clients] in *. split; [|split].
    + intros key. destruct (Hres key) as (-> & -> & ->).
      cbn [take foldl]. unfold mergeStep at 2 4 6.
      by rewrite Hrd, Hrb, Hrc.
    + constructor; [|done]. intros key. cbn [domains blocked clients]. done.
    + constructor; [|done]. repeat split; cbn [domains blocked clients];
        try apply Hwd; try apply Hwb; try apply Hwc; congruence.
Qed.

Lemma getStatsTop_merges_aux (cap hourOffset : Z) (d : dayTop)
    (key : string) :
  Forall (wfHour cap) (hours d) →
  Domains (getStatsTop hourOffset d).1 !! key =
    merged domains key (take (Z.to_nat hourOffset) (hours d)) ∧
  Blocked (getStatsTop hourOffset d).1 !! key =
    merged blocked key (take (Z.to_nat hourOffset) (hours d)) ∧
  Clients (getStatsTop hourOffset d).1 !! key =
    merged clients key (take (Z.to_nat hourOffset) (hours d)).
Proof.
  intros Hall. unfold getStatsTop.
  match goal with |- context [statsLoop ?n (hours d) ?s0] =>
    destruct (statsLoop_spec cap n (hours d) s0 Hall) as (Hres & _);
    destruct (statsLoop n (hours d) s0) as [s1 hs1];
    assert (take n (hours d) = take (Z.to_nat hourOffset) (hours d)) as Htake end.
  { destruct (decide _); [|done].
    rewrite Nat2Z.id, firstn_all. symmetry. apply take_ge. lia. }
  cbn [fst snd Domains Blocked Clients] in *. rewrite Htake in Hres.
  destruct (Hres key) as (-> & -> & ->). by rewrite !lookup_empty.
Qed.

(** X8.  [getStatsTop(hourOffset)] on a ring with well-shaped counters:
    for every key, each of the three maps holds the sum of the key's counts
    over the newest [hourOffset] buckets (all of them when [hourOffset]
    exceeds their number, none when it is not positive), a bucket without
    the key adding nothing, and no entry for a key that none of these
    buckets holds. *)
Theorem getStatsTop_merges_hours (cap hourOffset : Z) (d : dayTop)
    (key : string) :
  Forall (wfHour cap) (hours d) →
  let hs := take (Z.to_nat hourOffset) (hours d) in
  Domains (getStatsTop hourOffset d).1 !! key = merged domains key hs ∧
  Blocked (getStatsTop hourOffset d).1 !! key = merged blocked key hs ∧
  Clients (getStatsTop hourOffset d).1 !! key = merged clients key hs.
Proof. intros Hall hs. by apply (getStatsTop_merges_aux cap). Qed.

Lemma foldl_mergeStep_same field key acc hs hs' :
  Forall2 (λ h h', find key (items (field h')) = find key (items (field h)))
    hs hs' →
  foldl (mergeStep field key) acc hs' = foldl (mergeStep field key) acc hs.
Proof.
  intros H. revert acc. induction H as [|h h' hs hs' Hh _ IH]; intros acc;
    [done|].
  cbn [foldl]. unfold mergeStep at 2 4. rewrite Hh. apply IH.
Qed.

(** X9.  Reading is repeatable.  [getStatsTop] leaves the limit, the length
    of the ring, the shape of the counters and the value under every key of
    every counter as they were (it only makes the keys it reads the most
    recently used), and a second [getStatsTop] with the same offset returns
    the same three maps. *)
Theorem getStatsTop_is_repeatable (cap hourOffset : Z) (d : dayTop) :
  Forall (wfHour cap) (hours d) →
  let d' := (getStatsTop hourOffset d).2 in
  limit d' = limit d ∧
  Forall2 sameCounts (hours d) (hours d') ∧
  Forall (wfHour cap) (hours d') ∧
  (getStatsTop hourOffset d').1 = (getStatsTop hourOffset d).1.
Proof.
  intros Hall d'.
  assert (limit d' = limit d ∧ Forall2 sameCounts (hours d) (hours d') ∧
          Forall (wfHour cap) (hours d')) as (Hlim & Hsame & Hall').
  { subst d'. unfold getStatsTop.
    match goal with |- context [statsLoop ?n (hours d) ?s0] =>
      destruct (statsLoop_spec cap n (hours d) s0 Hall) as (_ & Hsame & Hwf);
      destruct (statsLoop n (hours d) s0) as [s1 hs1] end.
    done. }
  split; [done|]. split; [done|]. split; [done|].
  assert (∀ key field,
            (∀ h h', sameCounts h h' →
               find key (items (field h')) = find key (items (field h))) →
            merged field key (take (Z.to_nat hourOffset) (hours d')) =
            merged field key (take (Z.to_nat hourOffset) (hours d))) as Hm.
  { intros key field Hfield. unfold merged. apply foldl_mergeStep_same.
    apply Forall2_take. eapply Forall2_impl; [exact Hsame|]. apply Hfield. }
  destruct (getStatsTop hourOffset d').1 as [D1 B1 C1] eqn:E1.
  destruct (getStatsTop hourOffset d).1 as [D2 B2 C2] eqn:E2.
  f_equal; apply map_eq; intros key.
  - pose proof (getStatsTop_merges_aux cap hourOffset d' key Hall') as (H1 & _).
    pose proof (getStatsTop_merges_aux cap hourOffset d key Hall) as (H2 & _).
    rewrite E1 in H1. rewrite E2 in H2. cbn [Domains] in *.
    rewrite H1, H2. apply Hm. intros h h' Hs. apply Hs.
  - pose proof (getStatsTop_merges_aux cap hourOffset d' key Hall') as (_ & H1 & _).
    pose proof (getStatsTop_merges_aux cap hourOffset d key Hall) as (_ & H2 & _).
    rewrite E1 in H1. rewrite E2 in H2. cbn [Blocked] in *.
    rewrite H1, H2. apply Hm. intros h h' Hs. apply Hs.
  - pose proof (getStatsTop_merges_aux cap hourOffset d' key Hall') as (_ & _ & H1).
    pose proof (getStatsTop_merges_aux cap hourOffset d key Hall) as (_ & _ & H2).
    rewrite E1 in H1. rewrite E2 in H2. cbn [Clients] in *.
    rewrite H1, H2. apply Hm. intros h h' Hs. apply Hs.
Qed.

End Stats.

Ltac concrete_wfHour :=
  repeat split;
  first [ apply (bool_decide_unpack _); by vm_compute
        | apply intValued_Forall; vm_compute; repeat constructor; by eexists
        | by vm_compute ].

Lemma sample_ring_wf : Forall (wfHour 500) (hours sample.ring).
Proof.
  unfold sample.ring. cbn [hours].
  repeat (apply Forall_cons; split; [concrete_wfHour|]). by apply Forall_nil.
Qed.

Lemma getStatsTop_merges_hours_witness :
  Domains (getStatsTop 2 sample.ring).1 !! "ads.example"%string = Some 3 ∧
  Blocked (getStatsTop 2 sample.ring).1 !! "ads.example"%string = Some 2 ∧
  Clients (getStatsTop 2 sample.ring).1 !! "ads.example"%string = None.
Proof.
  destruct (getStatsTop_merges_hours 500 2 sample.ring "ads.example"%string
              sample_ring_wf) as (HD & HB & HC).
  rewrite HD, HB, HC. repeat split.
Defined.

Lemma getStatsTop_is_repeatable_witness :
  limit (getStatsTop 1 sample.ring).2 = 2 ∧
  (getStatsTop 1 (getStatsTop 1 sample.ring).2).1 = (getStatsTop 1 sample.ring).1.
Proof.
  destruct (getStatsTop_is_repeatable 500 1 sample.ring sample_ring_wf)
    as (Hlim & _ & _ & Hsame).
  split; [exact Hlim | exact Hsame].
Defined.

(** ** The backfill of the statistics *)

Section BackfillShape.

Variable hoursOf : time.Duration → Z.
Variable Unpack : list byte → option dns.Msg.
Context {stats : Type}.
Variable incrementCounters : stats → entry.logEntry → stats.

(** Whatever the counters hold, [addEntry] returns when the bucket of the
    hour exists, and the ring keeps its limit and its length. *)
Lemma addEntry_returns e q now d :
  Z.of_nat (length (hours d)) = limit d →
  0 <= hoursOf (time.Sub now (entry.Time e)) →
  ∃ err d', addEntry hoursOf e q now d = Ret (err, d') ∧
            limit d' = limit d ∧ length (hours d') = length (hours d).
Proof.
  intros Hlen Hhour. unfold addEntry.
  destruct (decide _) as [|Hin]; [by eauto|].
  destruct (dns.Question q) as [|q0 qs]; [by eauto|].
  destruct (decide _); [by eauto|].
  unfold index. rewrite decide_True by done.
  destruct (hours d !! _) as [h|] eqn:Hh; [|apply lookup_ge_None in Hh; lia].
  cbn [mbind res_bind].
  destruct (incrementDomains _ h) as [[err1|] h1].
  { eexists _, _. split; [done|]. unfold setHour. cbn [limit hours]. by rewrite length_insert. }
  destruct (if entry.IsFiltered _ then _ else _) as [[err2|] h2].
  { eexists _, _. split; [done|]. unfold setHour. cbn [limit hours]. by rewrite length_insert. }
  destruct (if decide _ then _ else _) as [err3 h3].
  eexists _, _. split; [done|]. unfold setHour. cbn [limit hours]. by rewrite length_insert.
Qed.

Lemma Sub_nonneg now t : time.After t now = false → 0 <= time.Sub now t.
Proof.
  unfold time.After, time.Sub. intros H%bool_decide_eq_false.
  unfold int_min, int_max. lia.
Qed.

Lemma fillStatsLoop_returns now validFrom entries : ∀ top s,
  (∀ dur, 0 <= dur → 0 <= hoursOf dur) →
  Z.of_nat (length (hours top)) = limit top →
  ∃ top' s',
    fillStatsLoop hoursOf Unpack incrementCounters now validFrom entries top s
      = Ret (top', s') ∧
    limit top' = limit top ∧ length (hours top') = length (hours top).
Proof.
  intros top s Hhours. revert top s.
  induction entries as [|e entries IH]; intros top s Hlen; cbn [fillStatsLoop].
  - by eauto.
  - repeat (destruct (decide _); [by apply IH|]).
    destruct (time.After (entry.Time e) now) eqn:Hfut; [by apply IH|].
    destruct (Unpack _) as [q|]; [|by apply IH].
    destruct (decide _); [by apply IH|].
    destruct (addEntry_returns e q now top) as (err & top1 & -> & Hlim & Hl);
      [done | by apply Hhours, Sub_nonneg |].
    cbn [mbind res_bind].
    assert (Z.of_nat (length (hours top1)) = limit top1) as Hlen1 by congruence.
    destruct err;
      [destruct (IH top1 s Hlen1) as (top' & s' & -> & ? & ?)
      |destruct (IH top1 (incrementCounters s e) Hlen1) as (top' & s' & -> & ? & ?)];
      eexists _, _; (split; [done|]); split; congruence.
Qed.

(** X10.  On a ring as long as its limit, [fillStatsFromQueryLog] returns
    [nil] for every log: an entry stamped after the clock reading is
    skipped before its hour is computed, so no bucket is indexed below
    zero or beyond the ring; the limit, the length of the ring and the time
    limit are the same afterwards. *)
Theorem fillStatsFromQueryLog_returns (now : time.Time)
    (reader : option (list entry.logEntry)) (l : queryLog) (s : stats) :
  (∀ dur, 0 <= dur → 0 <= hoursOf dur) →
  Z.of_nat (length (hours (runningTop l))) = limit (runningTop l) →
  ∃ l' s',
    fillStatsFromQueryLog hoursOf Unpack incrementCounters now reader l s
      = Ret (None, l', s') ∧
    timeLimit l' = timeLimit l ∧
    limit (runningTop l') = limit (runningTop l) ∧
    length (hours (runningTop l')) = length (hours (runningTop l)).
Proof.
  intros Hhours Hlen. unfold fillStatsFromQueryLog.
  destruct reader as [entries|]; [|by eauto 10].
  match goal with |- context [fillStatsLoop _ _ _ _ ?v entries _ s] =>
    destruct (fillStatsLoop_returns now v entries (runningTop l) s Hhours Hlen)
      as (top' & s' & -> & Hlim & Hl) end.
  cbn [mbind res_bind]. eexists _, _. split; [done|]. done.
Qed.

Lemma fillStatsLoop_passedOver now validFrom e pre post : ∀ top s,
  passedOver Unpack validFrom e →
  fillStatsLoop hoursOf Unpack incrementCounters now validFrom
    (pre ++ e :: post) top s =
  fillStatsLoop hoursOf Unpack incrementCounters now validFrom
    (pre ++ post) top s.
Proof.
  intros top s Hskip. revert top s.
  induction pre as [|e' pre IH]; intros top s; cbn [app fillStatsLoop].
  - destruct (decide (time.Unix _ < _)); [done|].
    destruct (decide (length _ = 0%nat)); [done|].
    destruct (time.After _ _); [done|].
    destruct Hskip as [?|[?|[Hu|(q & Hu & Hq)]]]; [done | done | |];
      rewrite Hu; [done|]. by rewrite decide_True.
  - repeat (destruct (decide _); [by apply IH|]).
    destruct (time.After (entry.Time e') now); [by apply IH|].
    destruct (Unpack _) as [q|]; [|by apply IH].
    destruct (decide _); [by apply IH|].
    destruct (addEntry _ _ _ _ _) as [[[err|] top']|]; cbn [mbind res_bind];
      [by apply IH | by apply IH | done].
Qed.

(** X11.  The backfill passes over an entry that is older than the time
    limit, or has no question payload, or whose payload does not unpack, or
    unpacks to a message without exactly one question: buckets and counters
    end as they do on the log without the entry, and the entries after it
    are still read. *)
Theorem fillStatsFromQueryLog_passes_over (now : time.Time)
    (e : entry.logEntry) (pre post : list entry.logEntry) (l : queryLog)
    (s : stats) :
  passedOver Unpack
    (wrap_int (time.Unix now - wrap_int (timeLimit l * 60 * 60))) e →
  fillStatsFromQueryLog hoursOf Unpack incrementCounters now
    (Some (pre ++ e :: post)) l s =
  fillStatsFromQueryLog hoursOf Unpack incrementCounters now
    (Some (pre ++ post)) l s.
Proof.
  intros Hskip. unfold fillStatsFromQueryLog.
  by rewrite fillStatsLoop_passedOver.
Qed.

End BackfillShape.

Lemma fillStatsFromQueryLog_returns_witness :
  ∃ l' s',
    fillStatsFromQueryLog sample.hoursOf sample.Unpack (λ (n : nat) _, S n)
      (2000 * time.Second)
      (Some [sample.brokenEntry; sample.adsEntry])
      {| timeLimit := 24; runningTop := sample.ring |} 0%nat
      = Ret (None, l', s') ∧
    timeLimit l' = 24 ∧ limit (runningTop l') = 2 ∧
    length (hours (runningTop l')) = 2%nat.
Proof.
  apply (fillStatsFromQueryLog_returns sample.hoursOf sample.Unpack
           (λ (n : nat) _, S n)).
  - intros dur Hdur. unfold sample.hoursOf. apply Z.quot_pos; [done|].
    by vm_compute.
  - reflexivity.
Defined.

Lemma fillStatsFromQueryLog_passes_over_witness :
  fillStatsFromQueryLog sample.hoursOf sample.Unpack (λ (n : nat) _, S n)
    (2000 * time.Second)
    (Some [sample.brokenEntry; sample.adsEntry])
    {| timeLimit := 24; runningTop := sample.ring |} 0%nat =
  fillStatsFromQueryLog sample.hoursOf sample.Unpack (λ (n : nat) _, S n)
    (2000 * time.Second)
    (Some [sample.adsEntry])
    {| timeLimit := 24; runningTop := sample.ring |} 0%nat.
Proof.
  apply (fillStatsFromQueryLog_passes_over sample.hoursOf sample.Unpack
           (λ (n : nat) _, S n) (2000 * time.Second) sample.brokenEntry []
           [sample.adsEntry]).
  right. right. left. reflexivity.
Defined.

(** ** The log file: flush, rotation, replay *)

Lemma backup_name_differs (s : string) : s ≠ (s +:+ ".1")%string.
Proof. induction s as [|a s IH]; [done|]. intros [= H]. by apply IH. Qed.

Lemma keepLast_app {A} (n : Z) (l1 l2 : list A) :
  keepLast n (keepLast n l1 ++ l2) = keepLast n (l1 ++ l2).
Proof.
  unfold keepLast. rewrite !length_app, length_drop.
  destruct (decide (length l1 ≤ Z.to_nat n)%nat) as [Hle|Hgt].
  - replace (length l1 - Z.to_nat n)%nat with 0%nat by lia.
    rewrite drop_0. f_equal. lia.
  - rewrite <- (drop_app_le l1 l2) by lia. rewrite drop_drop. f_equal. lia.
Qed.

Lemma keepLast_length {A} (n : Z) (l : list A) :
  0 <= n → Z.of_nat (length (keepLast n l)) <= n.
Proof. intros Hn. unfold keepLast. rewrite length_drop. lia. Qed.

Lemma keepLast_short {A} (n : Z) (l : list A) :
  Z.of_nat (length l) <= n → keepLast n l = l.
Proof.
  intros H. unfold keepLast.
  replace (length l - Z.to_nat n)%nat with 0%nat by lia. apply drop_0.
Qed.

Section LogFile.

Import querylog.

Context {record : Type}.
Variable Encode : entry.logEntry → option record.
Variable Decode : record → option entry.logEntry.
Variable Unpack : list byte → option dns.Msg.
Variable logBufferCap : Z.
Variable queryLogSize : Z.

Lemma appendFile_grows fault filename data (fs fs' : disk record) err :
  appendFile fault filename data fs = (err, fs') →
  (∀ file old, fs !! file = Some old →
               ∃ more, fs' !! file = Some (old ++ more)) ∧
  (∀ file, file ≠ filename → fs' !! file = fs !! file).
Proof.
  unfold appendFile. intros H.
  assert (fs' = fs ∨ ∃ more,
            fs' = <[filename := default [] (fs !! filename) ++ more]> fs)
    as [->|[more ->]].
  { destruct fault; injection H as <- <-; eauto. }
  - split; [|done]. intros file old Hold. exists []. by rewrite app_nil_r.
  - split.
    + intros file old Hold. destruct (decide (file = filename)) as [->|Hne].
      * rewrite lookup_insert_eq, Hold. by eauto.
      * rewrite lookup_insert_ne by done. exists []. by rewrite app_nil_r.
    + intros file Hne. by rewrite lookup_insert_ne.
Qed.

Lemma flushToFile_disk l buffer fault (fs fs' : disk record) err :
  flushToFile Encode Decode l buffer fault fs = Ret (err, fs') →
  (err = None ∧ buffer ≠ [] ∧
   ∃ b, encodeAll Encode buffer = Some b ∧ Decode <$> b = Some <$> buffer ∧
        fs' = <[logFile l := default [] (fs !! logFile l) ++ b]> fs) ∨
  (err = None ∧ buffer = [] ∧ fs' = fs) ∨
  (err ≠ None ∧
   appendFile fault (logFile l) (default [] (encodeAll Encode buffer)) fs
     = (err, fs')) ∨
  (err ≠ None ∧ fs' = fs).
Proof.
  unfold flushToFile. destruct (decide _) as [H0|H0].
  { intros [= <- <-]. right. left. by destruct buffer. }
  assert (buffer ≠ []) as Hne by (by intros ->).
  destruct (encodeAll Encode buffer) as [b|] eqn:Henc;
    [|intros [= <- <-]; by (do 3 right)].
  destruct (checkBuffer Decode buffer b) as [[msg|]|] eqn:Hchk;
    cbn [mbind res_bind]; [intros [= <- <-]; by (do 3 right)| |done].
  apply checkBuffer_pass_iff in Hchk. cbn [enableGzip].
  intros [= H]. destruct fault; cbn [appendFile] in H; injection H as <- <-.
  - left. split; [done|]. split; [done|]. by eauto.
  - do 2 right. left. done.
  - do 2 right. left. done.
Qed.

(** X12.  The log file only grows.  Whatever the outcome of
    [flushLogBuffer] (nothing to do, success, or a failure at any step),
    every file keeps the records it had, in order, at its start; files
    other than the log file are untouched; and the configuration, the file
    name and the cache of recent entries of the store are as before. *)
Theorem flushLogBuffer_only_appends (fullFlush : bool) (l l' : queryLog)
    (fault : ioFault) (fs fs' : disk record) (err : error) :
  flushLogBuffer Encode Decode logBufferCap fullFlush l fault fs
    = Ret (err, l', fs') →
  (∀ file old, fs !! file = Some old →
               ∃ more, fs' !! file = Some (old ++ more)) ∧
  (∀ file, file ≠ logFile l → fs' !! file = fs !! file) ∧
  conf l' = conf l ∧ logFile l' = logFile l ∧
  queryLogCache l' = queryLogCache l.
Proof.
  unfold flushLogBuffer.
  assert (∀ old : list record, ∃ more, Some old = Some (old ++ more)) as Hrefl.
  { intros old. exists []. by rewrite app_nil_r. }
  destruct (negb _ && negb fullFlush)%bool.
  { intros [= <- <- <-]. split; [|done]. intros file old ->. apply Hrefl. }
  match goal with |- context [flushToFile _ _ ?l1 ?buf _ _] =>
    destruct (flushToFile Encode Decode l1 buf fault fs)
      as [[err1 fs1]|] eqn:Hflush; [|done] end.
  cbn [mbind res_bind]. intros [= <- <- <-]. cbn [conf logFile queryLogCache].
  split; [|split; [|done]].
  - apply flushToFile_disk in Hflush
      as [(_ & _ & b & _ & _ & ->)|[(_ & _ & ->)|[(_ & Happ)|(_ & ->)]]];
      cbn [logFile] in *.
    + intros file old Hold. destruct (decide (file = logFile l)) as [->|Hne].
      * rewrite lookup_insert_eq, Hold. by eauto.
      * rewrite lookup_insert_ne by done. rewrite Hold. apply Hrefl.
    + intros file old ->. apply Hrefl.
    + by apply appendFile_grows in Happ as [? _].
    + intros file old ->. apply Hrefl.
  - apply flushToFile_disk in Hflush
      as [(_ & _ & b & _ & _ & ->)|[(_ & _ & ->)|[(_ & Happ)|(_ & ->)]]];
      cbn [logFile] in *; try done.
    + intros file Hne. by rewrite lookup_insert_ne.
    + by apply appendFile_grows in Happ as [_ ?].
Qed.

(** X13.  When [flushLogBuffer] has a batch to flush (a full flush, or the
    buffer at its capacity) and returns [nil], the log file has grown by
    the records of the batch, one per entry and in the order of the buffer,
    each decoding to its entry; the pending buffer is empty and the pending
    flag cleared. *)
Theorem flushLogBuffer_success_appends_batch (fullFlush : bool)
    (l l' : queryLog) (fault : ioFault) (fs fs' : disk record) :
  fullFlush = true ∨ logBufferCap <= Z.of_nat (length (logBuffer l)) →
  logBuffer l ≠ [] →
  flushLogBuffer Encode Decode logBufferCap fullFlush l fault fs
    = Ret (None, l', fs') →
  logBuffer l' = [] ∧ flushPending l' = false ∧
  ∃ b, length b = length (logBuffer l) ∧
       Decode <$> b = Some <$> logBuffer l ∧
       fs' = <[logFile l := default [] (fs !! logFile l) ++ b]> fs.
Proof.
  intros Hdue Hne. unfold flushLogBuffer.
  assert ((negb (bool_decide (Z.of_nat (length (logBuffer l)) >= logBufferCap))
           && negb fullFlush)%bool = false) as ->.
  { destruct Hdue as [->|Hcap]; [by rewrite andb_false_r|].
    rewrite bool_decide_eq_true_2 by lia. done. }
  match goal with |- context [flushToFile _ _ ?l1 ?buf _ _] =>
    destruct (flushToFile Encode Decode l1 buf fault fs)
      as [[err1 fs1]|] eqn:Hflush; [|done] end.
  cbn [mbind res_bind]. intros [= -> <- <-]. cbn [logBuffer flushPending].
  split; [done|]. split; [done|].
  apply flushToFile_disk in Hflush
    as [(_ & _ & b & Henc & Hmap & ->)|[(_ & ? & _)|[(? & _)|(? & _)]]];
    try done.
  exists b. split; [by eapply encodeAll_length|]. done.
Qed.

Lemma checkLoop_app buffer b b2 : ∀ i j,
  checkLoop Decode buffer b i = Ret (None, j) →
  checkLoop Decode buffer (b ++ b2) i = checkLoop Decode buffer b2 j.
Proof.
  induction b as [|r b IH]; intros i j; cbn [app checkLoop].
  - by intros [= <-].
  - destruct (Decode r) as [e|]; [|done].
    destruct (index buffer _) as [x|]; [|done]. cbn [mbind res_bind].
    destruct (decide (e = x)); [apply IH | done].
Qed.

(** X14.  [checkBuffer] against a count mismatch.  When every record
    decodes to the entry at its index: with fewer records than entries the
    check reports an error; with a further record that decodes, the check
    reads the buffer past its end, and does not return. *)
Theorem checkBuffer_count_mismatch (buffer : list entry.logEntry)
    (b : list record) :
  Decode <$> b = Some <$> take (length b) buffer →
  ((length b < length buffer)%nat →
   checkBuffer Decode buffer b = Ret (Some "check fail"%string)) ∧
  (∀ r e rest, length b = length buffer → Decode r = Some e →
     checkBuffer Decode buffer (b ++ r :: rest) = Panic).
Proof.
  intros Hmap.
  assert ((length b ≤ length buffer)%nat →
          checkLoop Decode buffer b 0 = Ret (None, length b)) as Hloop.
  { intros Hle. rewrite (checkLoop_complete Decode buffer b 0%nat);
      [done | | lia]. by rewrite drop_0. }
  split.
  - intros Hlt. unfold checkBuffer. rewrite Hloop by lia.
    cbn [mbind res_bind]. rewrite decide_True by lia. done.
  - intros r e rest Heq Hdec. unfold checkBuffer.
    rewrite (checkLoop_app buffer b (r :: rest) 0%nat (length b)) by (apply Hloop; lia).
    cbn [checkLoop]. rewrite Hdec. unfold index.
    rewrite decide_True by lia. rewrite Nat2Z.id.
    rewrite (proj2 (lookup_ge_None buffer (length b))) by lia. done.
Qed.

(** X25.  [checkBuffer] returns [nil] exactly when the records are as many
    as the entries of the batch and decode to them, entry for entry. *)
Theorem checkBuffer_passes_exactly (buffer : list entry.logEntry)
    (b : list record) :
  checkBuffer Decode buffer b = Ret None ↔
  length b = length buffer ∧ Decode <$> b = Some <$> buffer.
Proof.
  rewrite checkBuffer_pass_iff. split; [|by intros [_ ?]].
  intros Hmap. split; [|done].
  by rewrite <- (length_fmap Decode), Hmap, length_fmap.
Qed.

End LogFile.

Lemma flushLogBuffer_only_appends_witness :
  ∃ l' fs',
    querylog.flushLogBuffer sample.Encode sample.Decode 5000 true sample.log
      (querylog.WriteFails 0) {["querylog.json"%string := [None]]}
      = Ret (Some "write"%string, l', fs') ∧
    ∃ more, fs' !! "querylog.json"%string = Some ([None] ++ more).
Proof.
  eexists _, _. split; [reflexivity|].
  eapply (flushLogBuffer_only_appends sample.Encode sample.Decode 5000 true
            sample.log _ (querylog.WriteFails 0)
            {["querylog.json"%string := [None]]});
    reflexivity.
Defined.

Lemma flushLogBuffer_success_appends_batch_witness :
  ∃ l' fs',
    querylog.flushLogBuffer sample.Encode sample.Decode 5000 true sample.log
      querylog.NoFault {["querylog.json"%string := [None]]}
      = Ret (None, l', fs') ∧
    querylog.logBuffer l' = [] ∧
    ∃ b, length b = 1%nat ∧
         fs' = <["querylog.json"%string := [None] ++ b]>
                 {["querylog.json"%string := [None]]}.
Proof.
  eexists _, _. split; [reflexivity|].
  destruct (flushLogBuffer_success_appends_batch sample.Encode sample.Decode
              5000 true sample.log _ querylog.NoFault
              {["querylog.json"%string := [None]]} _
              (or_introl eq_refl) ltac:(discriminate) eq_refl)
    as (Hbuf & _ & b & Hlen & _ & Hfs).
  split; [exact Hbuf|]. exists b. split; [exact Hlen | exact Hfs].
Defined.

Lemma checkBuffer_count_mismatch_witness :
  querylog.checkBuffer sample.Decode [sample.adsEntry; sample.brokenEntry]
    [Some sample.adsEntry] = Ret (Some "check fail"%string).
Proof.
  apply (checkBuffer_count_mismatch sample.Decode
           [sample.adsEntry; sample.brokenEntry] [Some sample.adsEntry]).
  - reflexivity.
  - simpl. lia.
Defined.

Section ReplayShape.

Import querylog.

Context {record : Type}.
Variable Encode : entry.logEntry → option record.
Variable Decode : record → option entry.logEntry.
Variable Broken : record → option bool.
Variable Unpack : list byte → option dns.Msg.
Variable logBufferCap : Z.
Variable queryLogSize : Z.
Variable timeWindow : time.Duration.
Variable now nowLoader : time.Time.

Local Abbreviation scan :=
  (scanRecords Decode Broken (fillFromFile_onEntry Unpack queryLogSize now)
     (λ _, true) timeWindow nowLoader).
Local Abbreviation fateOf' :=
  (fateOf Decode Broken Unpack timeWindow now nowLoader).
Local Abbreviation loaded' :=
  (loaded Decode Broken Unpack timeWindow now nowLoader).
Local Abbreviation withCache l cache :=
  {| conf := conf l; logFile := logFile l; logBuffer := logBuffer l;
     flushPending := flushPending l; queryLogCache := cache |}.

(** One turn of the replay loop, by the fate of the record. *)
Lemma scanRecords_fate r rs cache :
  0 <= queryLogSize →
  scan (r :: rs) cache =
  match fateOf' r with
  | Skipped => scan rs cache
  | Loaded e => scan rs (keepLast queryLogSize (cache ++ [e]))
  | Stops => Returns (Some "unpack"%string, cache)
  | Ends => Returns (None, cache)
  | Stuck => Hangs
  end.
Proof.
  intros Hsz. cbn [scanRecords negb]. unfold fateOf, fillFromFile_onEntry.
  destruct (Decode r) as [e|]; [|by destruct (Broken r) as [[|]|]].
  assert (∀ (X : run (error * list entry.logEntry)),
            match Broken r with
            | Some true | Some false | None => X
            end = X) as Hx by (by intros; destruct (Broken r) as [[|]|]).
  destruct (decide (time.Sub _ _ > _)); [by destruct (Broken r) as [[|]|]|].
  destruct (decide (length _ = 0%nat)); [by destruct (Broken r) as [[|]|]|].
  destruct (time.After _ _); [by destruct (Broken r) as [[|]|]|].
  destruct (Unpack _) as [q|]; [|by destruct (Broken r) as [[|]|]].
  destruct (decide (length (dns.Question q) = 1%nat)) as [H1|H1].
  - rewrite decide_False by (by intros ?). unfold keepLast.
    destruct (decide (_ > _)) as [Hgt|Hle].
    + destruct (Broken r) as [[|]|]; do 2 f_equal; lia.
    + replace (length (cache ++ [e]) - Z.to_nat queryLogSize)%nat
        with 0%nat by lia. rewrite drop_0.
      by destruct (Broken r) as [[|]|].
  - rewrite decide_True by done. by destruct (Broken r) as [[|]|].
Qed.

Lemma loaded_cons r rs :
  loaded' (r :: rs) =
  match fateOf' r with Loaded e => e :: loaded' rs | _ => loaded' rs end.
Proof. unfold loaded. cbn [omap list_omap]. by destruct (fateOf' r). Qed.

Lemma loaded_app rs1 rs2 : loaded' (rs1 ++ rs2) = loaded' rs1 ++ loaded' rs2.
Proof. unfold loaded. apply omap_app. Qed.

Lemma scan_closed_form rs : ∀ cache,
  0 <= queryLogSize →
  Forall (λ r, passable (fateOf' r)) rs →
  Z.of_nat (length cache) <= queryLogSize →
  scan rs cache
    = Returns (None, keepLast queryLogSize (cache ++ loaded' rs)).
Proof.
  intros cache Hsz Hall. revert cache.
  induction Hall as [|r rs Hr _ IH]; intros cache Hlen.
  - cbn [scanRecords]. unfold loaded. cbn [omap list_omap].
    by rewrite app_nil_r, keepLast_short.
  - rewrite scanRecords_fate, loaded_cons by done.
    destruct (fateOf' r) as [|e| | |]; [by apply IH | | done..].
    rewrite IH by (by apply keepLast_length).
    by rewrite keepLast_app, <- app_assoc.
Qed.

(** The scan of a file returns with a cache within the bound, unless a
    record of the file holds it for ever. *)
Lemma scan_bound rs : ∀ cache,
  0 <= queryLogSize →
  Z.of_nat (length cache) <= queryLogSize →
  match scan rs cache with
  | Returns (_, cache') => Z.of_nat (length cache') <= queryLogSize
  | Hangs => Exists (λ r, fateOf' r = Stuck) rs
  end.
Proof.
  intros cache Hsz. revert cache.
  induction rs as [|r rs IH]; intros cache Hlen; [done|].
  rewrite scanRecords_fate by done.
  destruct (fateOf' r) as [|e| | |] eqn:Hf.
  - specialize (IH cache Hlen).
    destruct (scan rs cache) as [[? ?]|]; [done | by apply Exists_cons_tl].
  - specialize (IH (keepLast queryLogSize (cache ++ [e]))
                  (keepLast_length _ _ Hsz)).
    destruct (scan rs _) as [[? ?]|]; [done | by apply Exists_cons_tl].
  - done.
  - done.
  - by apply Exists_cons_hd.
Qed.

(** The scan does not get past a record that holds it. *)
Lemma scan_stuck pre r post : ∀ cache,
  0 <= queryLogSize →
  Forall (λ r, passable (fateOf' r)) pre →
  fateOf' r = Stuck →
  scan (pre ++ r :: post) cache = Hangs.
Proof.
  intros cache Hsz Hall Hr. revert cache.
  induction Hall as [|r' pre Hr' _ IH]; intros cache; cbn [app].
  - rewrite scanRecords_fate by done. by rewrite Hr.
  - rewrite scanRecords_fate by done.
    destruct (fateOf' r'); by try apply IH.
Qed.

(** The replay over the two files of a store. *)
Lemma fillFromFile_scans (fs : disk record) (l : queryLog) :
  timeWindow = Interval (conf l) →
  fillFromFile Decode Broken Unpack queryLogSize now nowLoader fs l =
  match scan (default [] (fs !! logFile l)) (queryLogCache l) with
  | Hangs => Hangs
  | Returns (Some _, cache) => Returns (withCache l cache)
  | Returns (None, cache) =>
      match scan (default [] (fs !! (logFile l +:+ ".1")%string)) cache with
      | Hangs => Hangs
      | Returns (_, cache') => Returns (withCache l cache')
      end
  end.
Proof.
  intros ->. unfold fillFromFile, genericLoader.
  cbn [enableGzip scanFiles negb].
  destruct (fs !! logFile l) as [active|]; cbn [default]; unfold id.
  - destruct (scanRecords _ _ _ _ _ _ active _) as [[[err|] cache1]|];
      [reflexivity| |reflexivity].
    destruct (fs !! (logFile l +:+ ".1")%string) as [backup|];
      cbn [default]; unfold id.
    + destruct (scanRecords _ _ _ _ _ _ backup _) as [[[err|] cache2]|];
        reflexivity.
    + reflexivity.
  - cbn [scanRecords].
    destruct (fs !! (logFile l +:+ ".1")%string) as [backup|];
      cbn [default]; unfold id.
    + destruct (scanRecords _ _ _ _ _ _ backup _) as [[[err|] cache2]|];
        reflexivity.
    + reflexivity.
Qed.

Lemma fillFromFile_closed_form (fs : disk record) (l : queryLog) :
  timeWindow = Interval (conf l) →
  0 <= queryLogSize →
  Z.of_nat (length (queryLogCache l)) <= queryLogSize →
  Forall (λ r, passable (fateOf' r))
    (default [] (fs !! logFile l) ++
     default [] (fs !! (logFile l +:+ ".1")%string)) →
  fillFromFile Decode Broken Unpack queryLogSize now nowLoader fs l =
  Returns (withCache l
    (keepLast queryLogSize
       (queryLogCache l ++ loaded' (default [] (fs !! logFile l)) ++
        loaded' (default [] (fs !! (logFile l +:+ ".1")%string))))).
Proof.
  intros Hwin Hsz Hlen [Ha Hb]%Forall_app.
  rewrite fillFromFile_scans by done.
  rewrite scan_closed_form by done.
  rewrite scan_closed_form; [|done|done|by apply keepLast_length].
  by rewrite keepLast_app, <- app_assoc.
Qed.

(** X15.  When every record of the two files is one the replay gets past
    (it decodes, or is a well-formed value of another shape, and its
    question payload, where the replay unpacks it, unpacks),
    [fillFromFile] returns and leaves in the cache the last
    [queryLogSize] entries of: the cache before, then the entries loaded
    from the log file in file order, then those of the backup file in file
    order.  The log file is read before its backup. *)
Theorem fillFromFile_result (fs : disk record) (l : queryLog) :
  let active := default [] (fs !! logFile l) in
  let backup := default [] (fs !! (logFile l +:+ ".1")%string) in
  timeWindow = Interval (conf l) →
  0 <= queryLogSize →
  Z.of_nat (length (queryLogCache l)) <= queryLogSize →
  Forall (λ r, passable (fateOf' r)) (active ++ backup) →
  ∃ l',
    fillFromFile Decode Broken Unpack queryLogSize now nowLoader fs l
      = Returns l' ∧
    queryLogCache l' =
      keepLast queryLogSize
        (queryLogCache l ++ loaded' active ++ loaded' backup) ∧
    logBuffer l' = logBuffer l ∧ flushPending l' = flushPending l.
Proof.
  intros active backup Hwin Hsz Hlen Hall.
  eexists. split; [by apply fillFromFile_closed_form|]. done.
Qed.

(** X16.  A cache within [queryLogSize] entries is within [queryLogSize]
    entries after [fillFromFile], whatever the files hold; and
    [fillFromFile] returns unless one of the files holds a record that is
    not well-formed JSON, on which the loop of the loader stays. *)
Theorem fillFromFile_cache_bounded (fs : disk record) (l : queryLog) :
  timeWindow = Interval (conf l) →
  0 <= queryLogSize →
  Z.of_nat (length (queryLogCache l)) <= queryLogSize →
  match fillFromFile Decode Broken Unpack queryLogSize now nowLoader fs l with
  | Returns l' => Z.of_nat (length (queryLogCache l')) <= queryLogSize
  | Hangs =>
      Exists (λ r, fateOf' r = Stuck)
        (default [] (fs !! logFile l) ++
         default [] (fs !! (logFile l +:+ ".1")%string))
  end.
Proof.
  intros Hwin Hsz Hlen. rewrite fillFromFile_scans by done.
  pose proof (scan_bound (default [] (fs !! logFile l)) (queryLogCache l)
                Hsz Hlen) as H1.
  destruct (scan (default [] (fs !! logFile l)) (queryLogCache l))
    as [[[err|] cache1]|]; [done| |by apply Exists_app; left].
  pose proof (scan_bound (default [] (fs !! (logFile l +:+ ".1")%string))
                cache1 Hsz H1) as H2.
  destruct (scan (default [] (fs !! (logFile l +:+ ".1")%string)) cache1)
    as [[? cache2]|]; [done | by apply Exists_app; right].
Qed.

(** X17.  A flush that returns [nil], then a replay: when every entry of
    the batch is one the replay loads (inside the time window, with a
    question payload that unpacks to one question, not stamped after the
    clock reading) and every older record is one the replay gets past, the
    replay returns and the cache ends with the last [queryLogSize] entries
    of: the cache before, the entries of the older records of the log file,
    the batch in its order, and the entries of the backup file. *)
Theorem flush_then_replay_recovers_batch (l l' : queryLog)
    (fault : ioFault) (fs fs' : disk record) :
  let active := default [] (fs !! logFile l) in
  let backup := default [] (fs !! (logFile l +:+ ".1")%string) in
  timeWindow = Interval (conf l) →
  0 <= queryLogSize →
  Z.of_nat (length (queryLogCache l)) <= queryLogSize →
  logBuffer l ≠ [] →
  flushLogBuffer Encode Decode logBufferCap true l fault fs
    = Ret (None, l', fs') →
  Forall (λ e, ∀ r, Decode r = Some e → fateOf' r = Loaded e) (logBuffer l) →
  Forall (λ r, passable (fateOf' r)) (active ++ backup) →
  ∃ l'',
    fillFromFile Decode Broken Unpack queryLogSize now nowLoader fs' l'
      = Returns l'' ∧
    queryLogCache l'' =
      keepLast queryLogSize
        (queryLogCache l ++ loaded' active ++ logBuffer l ++ loaded' backup).
Proof.
  intros active backup Hwin Hsz Hlen Hne Hflush Hloads [Ha Hb]%Forall_app.
  unfold flushLogBuffer in Hflush. rewrite andb_false_r in Hflush.
  match type of Hflush with context [flushToFile _ _ ?l1 ?buf _ _] =>
    destruct (flushToFile Encode Decode l1 buf fault fs)
      as [[err1 fs1]|] eqn:Hdisk; [|done] end.
  cbn [mbind res_bind] in Hflush. injection Hflush as -> <- <-.
  apply (flushToFile_disk Encode Decode) in Hdisk
    as [(_ & _ & b & _ & Hmap & ->)|[(_ & ? & _)|[(? & _)|(? & _)]]];
    try done.
  cbn [logFile] in *.
  assert (loaded' b = logBuffer l ∧ Forall (λ r, passable (fateOf' r)) b)
    as [Hb1 Hb2].
  { clear -Hmap Hloads. revert b Hmap.
    induction Hloads as [|e es He _ IH]; intros [|r b] Hmap;
      rewrite ?fmap_cons, ?fmap_nil in Hmap; try done.
    injection Hmap as Hr Hmap. destruct (IH b Hmap) as [IH1 IH2].
    rewrite loaded_cons, (He r Hr), IH1. split; [done|].
    constructor; [|done]. by rewrite (He r Hr). }
  eexists. split.
  - apply fillFromFile_closed_form; cbn [conf logFile queryLogCache];
      try done.
    rewrite lookup_insert_eq. cbn [default]. unfold id.
    rewrite lookup_insert_ne by apply backup_name_differs.
    fold active backup. rewrite <- app_assoc.
    apply Forall_app. split; [done|]. by apply Forall_app.
  - cbn [queryLogCache logFile].
    rewrite lookup_insert_eq. cbn [default]. unfold id.
    rewrite lookup_insert_ne by apply backup_name_differs.
    fold active backup. rewrite loaded_app, Hb1.
    by rewrite <- !app_assoc.
Qed.

(** X24.  A record of the log file that is not well-formed JSON and does
    not begin with a closing bracket, behind records the replay gets past:
    the decoder keeps its error and reads nothing more, [d.More()] goes on
    answering true, and [fillFromFile] does not return. *)
Theorem fillFromFile_stays_on_damaged_record (fs : disk record)
    (l : queryLog) (pre post : list record) (r : record) :
  timeWindow = Interval (conf l) →
  0 <= queryLogSize →
  fs !! logFile l = Some (pre ++ r :: post) →
  Forall (λ r, passable (fateOf' r)) pre →
  fateOf' r = Stuck →
  fillFromFile Decode Broken Unpack queryLogSize now nowLoader fs l = Hangs.
Proof.
  intros Hwin Hsz Hfile Hpre Hr. rewrite fillFromFile_scans by done.
  rewrite Hfile. cbn [default]. unfold id. by rewrite scan_stuck.
Qed.

End ReplayShape.

Lemma fillFromFile_result_witness :
  ∃ l',
    querylog.fillFromFile sample.Decode sample.Broken sample.Unpack 5000
      (2000 * time.Second) (2001 * time.Second)
      {["querylog.json"%string := [None; Some sample.adsEntry]]} sample.log
    = querylog.Returns l' ∧
    querylog.queryLogCache l' = [sample.adsEntry].
Proof.
  destruct (fillFromFile_result sample.Decode sample.Broken sample.Unpack 5000
              (24 * time.Hour) (2000 * time.Second) (2001 * time.Second)
              {["querylog.json"%string := [None; Some sample.adsEntry]]}
              sample.log) as (l' & Hret & Hcache & _).
  - reflexivity.
  - by vm_compute.
  - by vm_compute.
  - repeat constructor.
  - exists l'. split; [exact Hret|]. rewrite Hcache. reflexivity.
Defined.

Lemma fillFromFile_cache_bounded_witness :
  match
    querylog.fillFromFile sample.Decode sample.Broken sample.Unpack 1
      (2000 * time.Second) (2001 * time.Second)
      {["querylog.json"%string :=
          [Some sample.adsEntry; Some sample.adsEntry;
           Some sample.brokenEntry]]}
      sample.log
  with
  | querylog.Returns l' =>
      Z.of_nat (length (querylog.queryLogCache l')) <= 1
  | querylog.Hangs =>
      Exists (λ r, fateOf sample.Decode sample.Broken sample.Unpack
                     (24 * time.Hour) (2000 * time.Second)
                     (2001 * time.Second) r = Stuck)
        (default [] (({["querylog.json"%string :=
             [Some sample.adsEntry; Some sample.adsEntry;
              Some sample.brokenEntry]]} : gmap string (list sample.record))
           !! querylog.logFile sample.log) ++
         default [] (({["querylog.json"%string :=
             [Some sample.adsEntry; Some sample.adsEntry;
              Some sample.brokenEntry]]} : gmap string (list sample.record))
           !! (querylog.logFile sample.log +:+ ".1")%string))
  end.
Proof.
  apply (fillFromFile_cache_bounded sample.Decode sample.Broken sample.Unpack
           1 (24 * time.Hour));
    [reflexivity | by vm_compute | by vm_compute].
Defined.

Lemma flush_then_replay_recovers_batch_witness :
  ∃ l' fs',
    querylog.flushLogBuffer sample.Encode sample.Decode 5000 true sample.log
      querylog.NoFault ∅ = Ret (None, l', fs') ∧
    ∃ l'',
      querylog.fillFromFile sample.Decode sample.Broken sample.Unpack 5000
        (2000 * time.Second) (2001 * time.Second) fs' l'
      = querylog.Returns l'' ∧
      querylog.queryLogCache l'' = [sample.adsEntry].
Proof.
  eexists _, _. split; [reflexivity|].
  destruct (flush_then_replay_recovers_batch sample.Encode sample.Decode
             sample.Broken sample.Unpack 5000 5000 (24 * time.Hour)
             (2000 * time.Second) (2001 * time.Second) sample.log _
             querylog.NoFault ∅ _
             eq_refl ltac:(by vm_compute) ltac:(by vm_compute)
             ltac:(discriminate) eq_refl)
    as (l'' & Hret & Hcache).
  - repeat constructor. intros r Hr. unfold sample.Decode in Hr. subst r.
    reflexivity.
  - constructor.
  - exists l''. split; [exact Hret|]. rewrite Hcache. reflexivity.
Defined.

Lemma fillFromFile_stays_on_damaged_record_witness :
  querylog.fillFromFile sample.Decode sample.BrokenLine sample.Unpack 5000
    (2000 * time.Second) (2001 * time.Second)
    {["querylog.json"%string := [Some sample.adsEntry; None;
                                 Some sample.adsEntry]]} sample.log
  = querylog.Hangs.
Proof.
  apply (fillFromFile_stays_on_damaged_record sample.Decode sample.BrokenLine
           sample.Unpack 5000 (24 * time.Hour) (2000 * time.Second)
           (2001 * time.Second) _ sample.log [Some sample.adsEntry]
           [Some sample.adsEntry] None).
  - reflexivity.
  - by vm_compute.
  - reflexivity.
  - repeat constructor.
  - reflexivity.
Defined.

(** ** Rotation of the log file *)

Section Rotation.

Import querylog.

Context {record : Type}.
Variable Decode : record → option entry.logEntry.
Variable Broken : record → option bool.
Variable Unpack : list byte → option dns.Msg.
Variable queryLogSize : Z.

Lemma rotateQueryLog_shape (l : queryLog) (fs : disk record) :
  match fs !! logFile l with
  | None => rotateQueryLog false l fs = (None, fs)
  | Some active =>
      ∃ fs', rotateQueryLog false l fs = (None, fs') ∧
        fs' !! logFile l = None ∧
        fs' !! (logFile l +:+ ".1")%string = Some active ∧
        ∀ file, file ≠ logFile l → file ≠ (logFile l +:+ ".1")%string →
                fs' !! file = fs !! file
  end.
Proof.
  unfold rotateQueryLog. cbn [enableGzip].
  destruct (fs !! logFile l) as [active|] eqn:Hf; [|done].
  eexists. split; [done|]. split; [|split].
  - rewrite lookup_insert_ne by (symmetry; apply backup_name_differs).
    apply lookup_delete_eq.
  - apply lookup_insert_eq.
  - intros file H1 H2. rewrite lookup_insert_ne by done.
    by rewrite lookup_delete_ne.
Qed.

(** X18.  [rotateQueryLog].  Without a log file it returns [nil] and the
    disk is as it was.  With one: a rename that fails returns its error and
    leaves the disk as it was; a rename that succeeds leaves no log file,
    makes the former log file the backup, whatever the backup held before,
    and touches no other file. *)
Theorem rotateQueryLog_moves_log_to_backup (l : queryLog) (fs : disk record) :
  match fs !! logFile l with
  | None => ∀ renameFails, rotateQueryLog renameFails l fs = (None, fs)
  | Some active =>
      rotateQueryLog true l fs = (Some "rename"%string, fs) ∧
      ∃ fs', rotateQueryLog false l fs = (None, fs') ∧
        fs' !! logFile l = None ∧
        fs' !! (logFile l +:+ ".1")%string = Some active ∧
        ∀ file, file ≠ logFile l → file ≠ (logFile l +:+ ".1")%string →
                fs' !! file = fs !! file
  end.
Proof.
  pose proof (rotateQueryLog_shape l fs) as H.
  destruct (fs !! logFile l) as [active|] eqn:Hf.
  - split; [|done]. unfold rotateQueryLog. cbn [enableGzip]. by rewrite Hf.
  - intros renameFails. unfold rotateQueryLog. cbn [enableGzip]. by rewrite Hf.
Qed.

(** X19.  A second rotation right after a rotation finds no log file: it
    returns [nil] and leaves the disk, the backup included, as the first one
    left it. *)
Theorem rotateQueryLog_twice (renameFails : bool) (l : queryLog)
    (fs : disk record) :
  rotateQueryLog renameFails l (rotateQueryLog false l fs).2 =
    (None, (rotateQueryLog false l fs).2).
Proof.
  pose proof (rotateQueryLog_shape l fs) as H.
  destruct (fs !! logFile l) as [active|] eqn:Hf.
  - destruct H as (fs' & Hrot & Hnone & _). rewrite Hrot. cbn [snd].
    unfold rotateQueryLog. cbn [enableGzip]. by rewrite Hnone.
  - rewrite H. cbn [snd]. unfold rotateQueryLog. cbn [enableGzip].
    by rewrite Hf.
Qed.

(** X20.  When there is no backup file, a rotation does not change what a
    replay recovers: [fillFromFile] gives the same store after the rotation
    as before it. *)
Theorem rotation_keeps_replay (now nowLoader : time.Time) (l : queryLog)
    (fs : disk record) :
  fs !! (logFile l +:+ ".1")%string = None →
  fillFromFile Decode Broken Unpack queryLogSize now nowLoader
    (rotateQueryLog false l fs).2 l =
  fillFromFile Decode Broken Unpack queryLogSize now nowLoader fs l.
Proof.
  intros Hb. pose proof (rotateQueryLog_shape l fs) as H.
  destruct (fs !! logFile l) as [active|] eqn:Hf; [|by rewrite H].
  destruct H as (fs' & Hrot & Hnone & Hbackup & _). rewrite Hrot. cbn [snd].
  unfold fillFromFile, genericLoader. cbn [enableGzip scanFiles negb].
  rewrite Hnone, Hbackup, Hf, Hb.
  by destruct (scanRecords _ _ _ _ _ _ active _) as [[[err|] cache]|].
Qed.

End Rotation.

Lemma rotation_keeps_replay_witness :
  let fs := {["querylog.json"%string := [Some sample.adsEntry]]} in
  ∃ l',
    querylog.fillFromFile sample.Decode sample.Broken sample.Unpack 5000
      (2000 * time.Second) (2001 * time.Second)
      (querylog.rotateQueryLog false sample.log fs).2 sample.log
    = querylog.Returns l' ∧
    querylog.queryLogCache l' = [sample.adsEntry].
Proof.
  intros fs.
  rewrite (rotation_keeps_replay sample.Decode sample.Broken sample.Unpack
             5000 (2000 * time.Second) (2001 * time.Second) sample.log fs);
    [|reflexivity].
  eexists. split; reflexivity.
Defined.

(** ** The configuration handlers *)

Section Handlers.

Variable checkStatsInterval : Z → bool.
Variable decodeBody : list byte → option home.qlogConfig.
Variable Marshal : home.qlogConfig → option (list byte).

(** X21.  [handleQueryLogConfig] answers OK exactly when the body decodes
    and its interval is supported.  Then the enabled flag and the interval
    of the configuration are those of the request, and the query log has
    received one more [Configure] call, whose interval is the requested
    number of days in nanoseconds as long as that fits an [int64] (up to
    106751 days).  In every other case the answer is a bad request and the
    configuration is as it was. *)
Theorem handleQueryLogConfig_outcome (body : list byte)
    (config : home.configuration) :
  let resp := (home.handleQueryLogConfig checkStatsInterval decodeBody body config).1 in
  let config' := (home.handleQueryLogConfig checkStatsInterval decodeBody body config).2 in
  match decodeBody body with
  | Some reqData =>
      if checkStatsInterval (home.Interval reqData) then
        resp = home.returnOK ∧
        home.QueryLogEnabled config' = home.Enabled reqData ∧
        home.QueryLogInterval config' = home.Interval reqData ∧
        (∃ conf, home.configureCalls config' = conf :: home.configureCalls config ∧
           (0 <= home.Interval reqData <= 106751 →
            querylog.Interval conf = home.Interval reqData * (24 * time.Hour)))
      else
        (∃ text, resp = home.httpError 400 text) ∧ config' = config
  | None => (∃ text, resp = home.httpError 400 text) ∧ config' = config
  end.
Proof.
  intros resp config'. subst resp config'. unfold home.handleQueryLogConfig.
  destruct (decodeBody body) as [reqData|]; [|by eauto].
  destruct (checkStatsInterval _); cbn [negb fst snd]; [|by eauto].
  cbn [home.QueryLogEnabled home.QueryLogInterval home.configureCalls].
  split; [done|]. split; [done|]. split; [done|].
  eexists. split; [done|]. intros Hdays. cbn [querylog.Interval].
  unfold wrap_int, time.Hour, time.Second. rewrite Z.mod_small by lia. lia.
Qed.

(** X22.  Write, then read.  After a request that [handleQueryLogConfig]
    answers with OK, [handleQueryLogInfo] marshals the enabled flag and the
    interval of that request: its body is the JSON of the request's
    values. *)
Theorem config_write_then_info (body : list byte) (reqData : home.qlogConfig)
    (config config' : home.configuration) (json : list byte) :
  decodeBody body = Some reqData →
  home.handleQueryLogConfig checkStatsInterval decodeBody body config
    = (home.returnOK, config') →
  Marshal reqData = Some json →
  home.handleQueryLogInfo Marshal false config' = home.jsonBody json.
Proof.
  intros Hbody Hset Hjson. unfold home.handleQueryLogConfig in Hset.
  rewrite Hbody in Hset. destruct (negb _); [done|].
  injection Hset as <-. unfold home.handleQueryLogInfo.
  cbn [home.QueryLogEnabled home.QueryLogInterval].
  destruct reqData as [enabled interval]. cbn [home.Enabled home.Interval].
  by rewrite Hjson.
Qed.

End Handlers.

Lemma config_write_then_info_witness :
  ∃ config',
    home.handleQueryLogConfig sample.checkStatsInterval sample.decodeBody
      [x01; x07]
      {| home.QueryLogEnabled := false; home.QueryLogInterval := 1;
         home.configureCalls := [] |} = (home.returnOK, config') ∧
    home.handleQueryLogInfo
      (λ c, Some [if home.Enabled c then x01 else x00; x07]) false config'
    = home.jsonBody [x01; x07].
Proof.
  eexists. split; [reflexivity|].
  apply (config_write_then_info sample.checkStatsInterval sample.decodeBody
           (λ c, Some [if home.Enabled c then x01 else x00; x07])
           [x01; x07] {| home.Enabled := true; home.Interval := 7 |}
           {| home.QueryLogEnabled := false; home.QueryLogInterval := 1;
              home.configureCalls := [] |});
    reflexivity.
Defined.

(** ** What an increment can evict *)

Section Eviction.

Lemma find_app_ne key (l : list (string * ivalue)) k v :
  key ≠ k → find key (l ++ [(k, v)]) = find key l.
Proof.
  intros Hne. induction l as [|[k' v'] l IH]; simpl.
  - by rewrite decide_False by congruence.
  - destruct (decide (k' = key)); [done | exact IH].
Qed.

Lemma find_last_NoDup (l : list (string * ivalue)) k v :
  NoDup (l ++ [(k, v)]).*1 → find k (l ++ [(k, v)]) = Some v.
Proof.
  rewrite fmap_app. intros [_ [Hdisj _]]%NoDup_app.
  assert (k ∉ l.*1) as Hk. { intros Hin. apply (Hdisj k Hin). by left. }
  clear Hdisj. induction l as [|[k' v'] l IH]; simpl.
  - by rewrite decide_True.
  - rewrite fmap_cons, not_elem_of_cons in Hk. destruct Hk as [Hne Hk].
    rewrite decide_False by (simpl in Hne; congruence). by apply IH.
Qed.

Lemma Set_find_ne_resident key k v c :
  find key (items c) ≠ None → k ≠ key →
  find k (items (Set_ key v c)) = find k (items c).
Proof.
  intros Hres Hne. unfold Set_.
  destruct (find key (items c)); [|done]. cbn [items find].
  rewrite decide_False by congruence. by apply find_remove_ne.
Qed.

(** X23.  One [incrementValue] on a well-shaped counter: the key it
    increments has an item afterwards; every other key keeps its item and
    its value, except that when the key is new and the counter holds as
    many items as its capacity, the least recently used key, and that key
    alone, loses its item. *)
Theorem incrementValue_evicts_only_the_oldest (key : string) (c : Cache) :
  0 < size c → wfCache c →
  resident key (incrementValue key c).2 ∧
  ∀ k v, k ≠ key → find k (items c) = Some v →
    find k (items (incrementValue key c).2) = Some v ∨
    (find key (items c) = None ∧
     Z.of_nat (length (items c)) = size c ∧
     last (items c) = Some (k, v) ∧
     find k (items (incrementValue key c).2) = None).
Proof.
  intros Hsz (Hnd & Hint & Hlen). split.
  - pose proof (incrementValue_key key c) as H. unfold resident.
    destruct (find key (items c)) as [[n|s]|]; destruct H as [_ ->]; done.
  - intros k v Hne Hk.
    pose proof (Get_find key k c) as Hf. pose proof (Get_find key key c) as Hf'.
    pose proof (Get_value key c) as Hv.
    destruct (find key (items c)) as [[n|s]|] eqn:Hkey.
    + left. unfold incrementValue. destruct (Get key c) as [o c1].
      cbn [fst snd] in *. subst o. cbn [snd].
      rewrite Set_find_ne_resident by (done || congruence). by rewrite Hf.
    + by destruct (Hint key s).
    + unfold incrementValue, Get. rewrite Hkey. cbn [snd].
      unfold Set_. rewrite Hkey.
      destruct (decide (size c <= _)) as [Hfull|Hroom]; cbn [items find];
        rewrite decide_False by congruence; [|by left].
      destruct (decide (items c = [])) as [Hnil|Hnn];
        [rewrite Hnil in Hk; done|].
      destruct (exists_last Hnn) as (l' & [k0 v0] & Hl).
      unfold Keys in Hnd. rewrite Hl in *. rewrite removelast_last.
      destruct (decide (k = k0)) as [->|Hk0].
      * right. rewrite find_last_NoDup in Hk by done. injection Hk as ->.
        split; [done|]. split; [lia|]. split; [apply last_snoc|].
        rewrite fmap_app in Hnd. apply NoDup_app in Hnd as (_ & Hdisj & _).
        destruct (find k0 l') eqn:Hfind; [|done]. exfalso.
        apply (Hdisj k0); [|by left].
        apply elem_of_Keys_find. by rewrite Hfind.
      * left. by rewrite find_app_ne in Hk.
Qed.

End Eviction.

Lemma incrementValue_evicts_only_the_oldest_witness :
  let c := incrementAll ["a"; "b"]%string (New 2) in
  resident "c" (incrementValue "c" c).2 ∧
  find "b" (items (incrementValue "c" c).2) = Some (VInt 1) ∧
  find "a" (items (incrementValue "c" c).2) = None.
Proof.
  intros c.
  destruct (incrementValue_evicts_only_the_oldest "c"%string c) as [Hres Hrest].
  - reflexivity.
  - split; [|split].
    + apply (bool_decide_unpack _). by vm_compute.
    + apply intValued_Forall. vm_compute. repeat constructor; by eexists.
    + vm_compute. discriminate.
  - split; [exact Hres|]. split; reflexivity.
Defined.

(** ** A run of increments *)

(** X1.  A counter with no key twice, [int] values and no more items than
    its capacity stays so through any run of [incrementValue] calls,
    whatever the keys: the number of items never exceeds the capacity,
    which stays the same. *)
Theorem increments_keep_shape (keys : list string) (c : Cache) :
  0 < size c → wfCache c →
  wfCache (incrementAll keys c) ∧ size (incrementAll keys c) = size c.
Proof.
  revert c. induction keys as [|key keys IH]; intros c Hsz Hwf; [done|].
  destruct (incrementValue_wfCache key c Hsz Hwf) as (_ & Hwf1 & Hsz1).
  cbn [incrementAll]. destruct (IH (incrementValue key c).2) as [Hwf' Hsz'];
    [lia | done |]. split; [done | congruence].
Qed.

Lemma increments_keep_shape_witness :
  wfCache (incrementAll ["a"; "b"; "c"; "a"; "d"]%string (New 2)) ∧
  size (incrementAll ["a"; "b"; "c"; "a"; "d"]%string (New 2)) = 2.
Proof.
  apply (increments_keep_shape ["a"; "b"; "c"; "a"; "d"]%string (New 2)).
  - reflexivity.
  - by apply New_wfCache.
Defined.
